(** * Pick-and-place sequencing of [scripts/pick_and_place.py]

    A shallow embedding of the [PickAndPlace] class and of the home-pose
    bookkeeping of [main], with the properties of the motion sequence that
    the specification states.

    Python floats are IEEE-754 binary64 numbers: they are modelled by Rocq's
    primitive floats, which are the same numbers with the same rounding.
    Python objects live in a heap of cells addressed by locations, so that
    [copy.deepcopy] and attribute assignment have their aliasing behaviour.
    Every effect on the outside world (gripper, limb, IK service, logging,
    printing, sleeping) is recorded, in order, in a trace of events. *)

From Stdlib Require Import Floats ZArith Lia Permutation.
From stdpp Require Import gmap strings list.

Local Open Scope Z_scope.

(** ** Messages of [geometry_msgs] *)

(** [geometry_msgs/Point]: three float64 fields. *)
Record Point := mkPoint { px : float; py : float; pz : float }.

(** [geometry_msgs/Quaternion]: four float64 fields. *)
Record Quaternion := mkQuaternion { qx : float; qy : float; qz : float; qw : float }.

(** The content of a [geometry_msgs/Pose], as the IK service receives it once
    the request is serialised. *)
Record PoseV := mkPoseV { position : Point; orientation : Quaternion }.

(** ** The heap of Python objects *)

Definition loc := nat.

(** A [Pose] object refers to its [Point] and its [Quaternion], which are
    objects of their own. *)
Inductive obj :=
| OPoint (p : Point)
| OQuaternion (q : Quaternion)
| OPose (position_ref orientation_ref : loc).

(** Joint name to angle: the [dict] handed to the limb. *)
Abbreviation JointAngles := (gmap string float).

(** The values that reach [_guarded_move_to_joint_position]: [ik_request]
    returns [False] or a dict, [move_to_start] defaults to [None]. *)
Inductive pyval :=
| PyFalse
| PyNone
| PyDict (d : JointAngles).

(** Python truthiness: [False], [None] and the empty dict are falsy. *)
Definition truthy (v : pyval) : bool :=
  match v with
  | PyDict d => bool_decide (d ≠ ∅)
  | PyFalse | PyNone => false
  end.

(** ** Effects *)

Inductive Event :=
| EvGripperOpen                       (* self._gripper.open() *)
| EvGripperClose                      (* self._gripper.close() *)
| EvSleep (seconds : float)           (* rospy.sleep(seconds) *)
| EvIKService (p : PoseV)             (* self._iksvc(ikreq) *)
| EvMove (joints : JointAngles)       (* self._limb.move_to_joint_positions(joints) *)
| EvEndpointPose                      (* self._limb.endpoint_pose() *)
| EvLogErr (msg : string)             (* rospy.logerr(msg) *)
| EvPrint (msg : string)              (* print(msg) *)
| EvPrintJoints (d : JointAngles).    (* print("IK Joint Solution:\n{0}".format(d)) *)

(** [sensor_msgs/JointState], the two fields the script reads. *)
Record JointState := mkJointState { name : list string; position_ : list float }.

(** Response of [baxter_core_msgs/SolvePositionIK]: [result_type] is a
    [uint8[]], which rospy hands over as a byte string. *)
Record IKResponse := mkIKResponse {
  joints : list JointState;
  result_type : list Byte.byte
}.

(** What a call of the service proxy does: it answers, or it raises one of
    the two exceptions that [ik_request] catches. *)
Inductive IKReply :=
| Responds (resp : IKResponse)
| RaisesServiceException (e : string)
| RaisesROSException (e : string).

(** The constants of [SolvePositionIK.srv]. The service definition belongs to
    the robot's SDK, so the script is modelled for any value of them. *)
Record IKConstants := mkIKConstants {
  RESULT_INVALID : Z;
  SEED_USER : Z;
  SEED_CURRENT : Z;
  SEED_NS_MAP : Z
}.

(** The outside world. The IK service and the limb's pose sensor answer as a
    function of everything that happened so far (the trace before the call),
    which lets them give a different answer at every call. The gripper and
    the limb carry out what they are told without raising. *)
Record Env := mkEnv {
  consts : IKConstants;
  iksvc : list Event → PoseV → IKReply;
  endpoint_pose : list Event → PoseV
}.

(** The attributes of a [PickAndPlace] object that hold data. [_joint_names]
    is [None] while no attribute of that name is bound on the object. *)
Record PickAndPlace := mkPickAndPlace {
  _limb_name : string;
  _hover_distance : float;
  _verbose : bool;
  _joint_names : option (list string)
}.

(** [__init__] (lines 64-78) binds [_limb_name], [_hover_distance],
    [_verbose] and the handles of the limb, the gripper, the IK service and
    the robot state, which [Env] stands for. It binds no [_joint_names], and
    neither does the class. *)
Definition __init__ (limb : string) (hover_distance : float) (verbose : bool)
  : PickAndPlace :=
  {| _limb_name := limb;
     _hover_distance := hover_distance;
     _verbose := verbose;
     _joint_names := None |}.

Record State := mkState { heap : list obj; trace : list Event }.

Inductive exn :=
| AttributeError (attr : string)
| IndexError
| ZeroDivisionError
| InvalidReference.

Inductive result (A : Type) :=
| Ok (a : A)
| Raise (e : exn).
Arguments Ok {A} a.
Arguments Raise {A} e.

(** ** A state and exception monad *)

Definition M (A : Type) : Type := State → result A * State.

Definition ret {A} (a : A) : M A := λ s, (Ok a, s).

Definition bind {A B} (m : M A) (k : A → M B) : M B :=
  λ s, match m s with
       | (Ok a, s') => k a s'
       | (Raise e, s') => (Raise e, s')
       end.

Definition raise {A} (e : exn) : M A := λ s, (Raise e, s).

Declare Scope py_scope.
Delimit Scope py_scope with py.
Notation "x <- c1 ;; c2" := (bind c1 (λ x, c2))
  (at level 100, c1 at next level, right associativity) : py_scope.
Notation "c1 ;;; c2" := (bind c1 (λ _, c2))
  (at level 100, right associativity) : py_scope.
Local Open Scope py_scope.

Definition emit (e : Event) : M unit :=
  λ s, (Ok tt, {| heap := heap s; trace := trace s ++ [e] |}).

Definition history : M (list Event) := λ s, (Ok (trace s), s).

Definition when (b : bool) (m : M unit) : M unit := if b then m else ret tt.

Fixpoint for_each {A} (l : list A) (body : A → M unit) : M unit :=
  match l with
  | [] => ret tt
  | x :: l' => body x ;;; for_each l' body
  end.

(** *** Heap access *)

Definition alloc (o : obj) : M loc :=
  λ s, (Ok (length (heap s)), {| heap := heap s ++ [o]; trace := trace s |}).

Definition load (l : loc) : M obj :=
  λ s, match heap s !! l with
       | Some o => (Ok o, s)
       | None => (Raise InvalidReference, s)
       end.

Definition store (l : loc) (o : obj) : M unit :=
  λ s, (Ok tt, {| heap := <[l := o]> (heap s); trace := trace s |}).

(** [pose.position] and [pose.orientation] *)
Definition get_position (pose : loc) : M loc :=
  o <- load pose ;;
  match o with
  | OPose lp _ => ret lp
  | _ => raise (AttributeError "position")
  end.

Definition get_orientation (pose : loc) : M loc :=
  o <- load pose ;;
  match o with
  | OPose _ lq => ret lq
  | _ => raise (AttributeError "orientation")
  end.

Definition load_point (l : loc) : M Point :=
  o <- load l ;;
  match o with
  | OPoint p => ret p
  | _ => raise (AttributeError "x")
  end.

Definition load_quaternion (l : loc) : M Quaternion :=
  o <- load l ;;
  match o with
  | OQuaternion q => ret q
  | _ => raise (AttributeError "x")
  end.

(** [pose.position.z] *)
Definition get_position_z (pose : loc) : M float :=
  lp <- get_position pose ;;
  p <- load_point lp ;;
  ret (pz p).

(** [pose.position.x = v], and likewise for the other fields *)
Definition set_position_x (pose : loc) (v : float) : M unit :=
  lp <- get_position pose ;;
  p <- load_point lp ;;
  store lp (OPoint (mkPoint v (py p) (pz p))).

Definition set_position_y (pose : loc) (v : float) : M unit :=
  lp <- get_position pose ;;
  p <- load_point lp ;;
  store lp (OPoint (mkPoint (px p) v (pz p))).

Definition set_position_z (pose : loc) (v : float) : M unit :=
  lp <- get_position pose ;;
  p <- load_point lp ;;
  store lp (OPoint (mkPoint (px p) (py p) v)).

Definition set_orientation_x (pose : loc) (v : float) : M unit :=
  lq <- get_orientation pose ;;
  q <- load_quaternion lq ;;
  store lq (OQuaternion (mkQuaternion v (qy q) (qz q) (qw q))).

Definition set_orientation_y (pose : loc) (v : float) : M unit :=
  lq <- get_orientation pose ;;
  q <- load_quaternion lq ;;
  store lq (OQuaternion (mkQuaternion (qx q) v (qz q) (qw q))).

Definition set_orientation_z (pose : loc) (v : float) : M unit :=
  lq <- get_orientation pose ;;
  q <- load_quaternion lq ;;
  store lq (OQuaternion (mkQuaternion (qx q) (qy q) v (qw q))).

Definition set_orientation_w (pose : loc) (v : float) : M unit :=
  lq <- get_orientation pose ;;
  q <- load_quaternion lq ;;
  store lq (OQuaternion (mkQuaternion (qx q) (qy q) (qz q) v)).

(** The whole content of a pose, as serialisation reads it. *)
Definition read_pose (pose : loc) : M PoseV :=
  lp <- get_position pose ;;
  lq <- get_orientation pose ;;
  p <- load_point lp ;;
  q <- load_quaternion lq ;;
  ret (mkPoseV p q).

(** [Pose()]: a fresh pose whose fields are all zero. *)
Definition new_Pose : M loc :=
  lp <- alloc (OPoint (mkPoint 0 0 0)) ;;
  lq <- alloc (OQuaternion (mkQuaternion 0 0 0 0)) ;;
  alloc (OPose lp lq).

(** [copy.deepcopy(pose)]: messages are copied with their sub-messages. *)
Definition deepcopy (l : loc) : M loc :=
  o <- load l ;;
  match o with
  | OPoint p => alloc (OPoint p)
  | OQuaternion q => alloc (OQuaternion q)
  | OPose lp lq =>
      p <- load_point lp ;;
      q <- load_quaternion lq ;;
      lp' <- alloc (OPoint p) ;;
      lq' <- alloc (OQuaternion q) ;;
      alloc (OPose lp' lq')
  end.

(** ** Python helpers *)

(** [l[i]] for a Python int [i]: negative indices count from the end, an
    index out of range raises [IndexError]. *)
Definition py_getitem {A} (l : list A) (i : Z) : result A :=
  let n := Z.of_nat (length l) in
  let j := if i <? 0 then i + n else i in
  if (0 <=? j) && (j <? n) then
    match l !! Z.to_nat j with
    | Some x => Ok x
    | None => Raise IndexError
    end
  else Raise IndexError.

(** [a % b] on Python ints: the result has the sign of [b], as [Z.modulo]
    has; a zero divisor raises. *)
Definition py_mod (a b : Z) : result Z :=
  if b =? 0 then Raise ZeroDivisionError else Ok (a `mod` b).

Definition lift {A} (r : result A) : M A := λ s, (r, s).

(** [dict(zip(keys, values))]: [zip] stops at the shorter list, and a key
    that occurs again takes the later value. *)
Definition dict_zip (keys : list string) (values : list float) : JointAngles :=
  foldl (λ d kv, <[kv.1 := kv.2]> d) ∅ (zip keys values).

(** [struct.unpack('<%dB' % len(s), s)]: the bytes as unsigned ints. *)
Definition struct_unpack_B (s : list Byte.byte) : list Z :=
  map (λ b, Z.of_N (Byte.to_N b)) s.

(** ** The methods of [PickAndPlace] *)

Section Methods.
Variable env : Env.
Variable self : PickAndPlace.

Definition logerr (msg : string) : M unit := emit (EvLogErr msg).
Definition print (msg : string) : M unit := emit (EvPrint msg).
Definition sleep (seconds : float) : M unit := emit (EvSleep seconds).

(** The dict literal of lines 103-107, looked up with default ['None']. *)
Definition seed_str (seed : Z) : string :=
  let names : gmap Z string :=
    <[SEED_NS_MAP (consts env) := "Nullspace Setpoints"]>
      (<[SEED_CURRENT (consts env) := "Current Joint Angles"]>
         (<[SEED_USER (consts env) := "User Provided Seed"]> ∅)) in
  default "None" (names !! seed).

(** Lines 89-119. The header (time stamp, frame ['base']) is part of the
    request and has no effect on the control flow. *)
Definition ik_request (pose : loc) : M pyval :=
  p <- read_pose pose ;;
  h <- history ;;
  emit (EvIKService p) ;;;
  match iksvc env h p with
  | RaisesServiceException e | RaisesROSException e =>
      logerr ("Service call failed: " +:+ e) ;;;
      ret PyFalse
  | Responds resp =>
      let resp_seeds := struct_unpack_B (result_type resp) in
      seed0 <- lift (py_getitem resp_seeds 0) ;;
      if negb (seed0 =? RESULT_INVALID (consts env)) then
        when (_verbose self)
          (print ("IK Solution SUCCESS - Valid Joint Solution Found from Seed Type: "
                  +:+ seed_str seed0)) ;;;
        js <- lift (py_getitem (joints resp) 0) ;;
        let limb_joints := dict_zip (name js) (position_ js) in
        when (_verbose self)
          (emit (EvPrintJoints limb_joints) ;;;
           print "------------------") ;;;
        ret (PyDict limb_joints)
      else
        logerr "INVALID POSE - No Valid Joint Solution Found." ;;;
        ret PyFalse
  end.

(** Lines 121-125. *)
Definition _guarded_move_to_joint_position (joint_angles : pyval) : M unit :=
  if truthy joint_angles then
    match joint_angles with
    | PyDict d => emit (EvMove d)
    | _ => ret tt
    end
  else
    logerr "No Joint Angles provided for move_to_joint_positions. Staying put.".

(** Lines 127-133. *)
Definition gripper_open : M unit :=
  emit EvGripperOpen ;;; sleep 1.

Definition gripper_close : M unit :=
  emit EvGripperClose ;;; sleep 1.

(** Lines 136-138, and again 143-144: a deep copy of the pose whose z is
    raised by the hover distance. The specification calls it [hover]. *)
Definition hover (pose : loc) : M loc :=
  approach <- deepcopy pose ;;
  z <- get_position_z approach ;;
  set_position_z approach (PrimFloat.add z (_hover_distance self)) ;;;
  ret approach.

(** Lines 135-140. *)
Definition _approach (pose : loc) : M unit :=
  approach <- hover pose ;;
  joint_angles <- ik_request approach ;;
  _guarded_move_to_joint_position joint_angles.

(** Lines 142-146. *)
Definition goTo (pose : loc) : M unit :=
  approach <- hover pose ;;
  joint_angles <- ik_request approach ;;
  _guarded_move_to_joint_position joint_angles.

(** Lines 148-161. [endpoint_pose()] returns a dict of two named tuples,
    which are values. *)
Definition _retract : M unit :=
  h <- history ;;
  emit EvEndpointPose ;;;
  let current_pose := endpoint_pose env h in
  ik_pose <- new_Pose ;;
  set_position_x ik_pose (px (position current_pose)) ;;;
  set_position_y ik_pose (py (position current_pose)) ;;;
  set_position_z ik_pose
    (PrimFloat.add (pz (position current_pose)) (_hover_distance self)) ;;;
  set_orientation_x ik_pose (qx (orientation current_pose)) ;;;
  set_orientation_y ik_pose (qy (orientation current_pose)) ;;;
  set_orientation_z ik_pose (qz (orientation current_pose)) ;;;
  set_orientation_w ik_pose (qw (orientation current_pose)) ;;;
  joint_angles <- ik_request ik_pose ;;
  _guarded_move_to_joint_position joint_angles.

(** Lines 163-166. *)
Definition _servo_to_pose (pose : loc) : M unit :=
  joint_angles <- ik_request pose ;;
  _guarded_move_to_joint_position joint_angles.

(** Lines 168-182. *)
Definition pick (pose : loc) (posePath : list loc) : M unit :=
  gripper_open ;;;
  _approach pose ;;;
  _servo_to_pose pose ;;;
  gripper_close ;;;
  _retract ;;;
  for_each posePath (λ p_, print "Came here" ;;; goTo p_).

(** Lines 184-192. *)
Definition place (pose : loc) : M unit :=
  _approach pose ;;;
  _servo_to_pose pose ;;;
  gripper_open ;;;
  _retract.

(** [self._joint_names] *)
Definition get_joint_names : M (list string) :=
  match _joint_names self with
  | Some names => ret names
  | None => raise (AttributeError "_joint_names")
  end.

(** Lines 80-87. A falsy [start_angles] is replaced by [dict(zip(
    self._joint_names, [0]*7))], whose first step is the attribute lookup;
    the seven zeros are written as floats here. *)
Definition move_to_start (start_angles : pyval) : M unit :=
  print ("Moving the " +:+ _limb_name self +:+ " arm to start pose...") ;;;
  start_angles <-
    (if negb (truthy start_angles) then
       names <- get_joint_names ;;
       ret (PyDict (dict_zip names (replicate 7 0%float)))
     else ret start_angles) ;;
  _guarded_move_to_joint_position start_angles ;;;
  gripper_open ;;;
  sleep 1 ;;;
  print "Running. Ctrl-c to quit".

End Methods.

(** ** The home poses of [main] (lines 356-367)

    [main] keeps, for each block, a list of home poses and an index into it:
    [block1_poses] with [idx1], [block2_poses] with [idx2]. *)

Section TaskQueue.
Context {A : Type}.

Record Task := mkTask { homes : list A; index : Z }.

(** [block1_poses[idx1]] (lines 359, 362) *)
Definition home_at (t : Task) : result A := py_getitem (homes t) (index t).

(** [idx1 = (idx1+1) % len(block1_poses)] (lines 361, 366) *)
Definition advance (t : Task) : result Task :=
  match py_mod (index t + 1) (Z.of_nat (length (homes t))) with
  | Ok i => Ok {| homes := homes t; index := i |}
  | Raise e => Raise e
  end.

(** The specification's [nextHome]: the pose at the index, then the
    advance. *)
Definition nextHome (t : Task) : result (A * Task) :=
  match home_at t with
  | Ok pose =>
      match advance t with
      | Ok t' => Ok (pose, t')
      | Raise e => Raise e
      end
  | Raise e => Raise e
  end.

(** [k] calls in a row, with the poses they return, in order. *)
Fixpoint nextHomes (k : nat) (t : Task) : result (list A * Task) :=
  match k with
  | O => Ok ([], t)
  | S k' =>
      match nextHome t with
      | Ok (pose, t') =>
          match nextHomes k' t' with
          | Ok (poses, t'') => Ok (pose :: poses, t'')
          | Raise e => Raise e
          end
      | Raise e => Raise e
      end
  end.
End TaskQueue.
Arguments Task A : clear implicits.

(** ** Vocabulary of the statements *)

(** The content of the pose object at a location, when there is one. *)
Definition heap_pose (h : list obj) (l : loc) : option PoseV :=
  match h !! l with
  | Some (OPose lp lq) =>
      match h !! lp, h !! lq with
      | Some (OPoint p), Some (OQuaternion q) => Some (mkPoseV p q)
      | _, _ => None
      end
  | _ => None
  end.

(** A pose raised by [d] along z. *)
Definition raised (d : float) (p : PoseV) : PoseV :=
  mkPoseV (mkPoint (px (position p)) (py (position p))
             (PrimFloat.add (pz (position p)) d))
          (orientation p).

(** Two floats that denote the same number: equal as IEEE numbers (which
    identifies the two zeros), or both not a number. *)
Definition same_number (a b : float) : bool :=
  PrimFloat.eqb a b || (PrimFloat.is_nan a && PrimFloat.is_nan b).

Definition same_pose (p p' : PoseV) : bool :=
  same_number (px (position p)) (px (position p'))
  && same_number (py (position p)) (py (position p'))
  && same_number (pz (position p)) (pz (position p'))
  && same_number (qx (orientation p)) (qx (orientation p'))
  && same_number (qy (orientation p)) (qy (orientation p'))
  && same_number (qz (orientation p)) (qz (orientation p'))
  && same_number (qw (orientation p)) (qw (orientation p')).

(** What a reply of the service amounts to for [ik_request]. The first two
    are the specification's [Solved] and [Unreachable]; [ServiceError] is a
    raised exception; the last two are responses that lack the entry the
    script indexes. *)
Inductive IKOutcome :=
| Solved (j : JointAngles) (seed : Z)
| Unreachable
| ServiceError (e : string)
| EmptyResultType
| EmptyJoints (seed : Z).

Definition outcome (c : IKConstants) (rep : IKReply) : IKOutcome :=
  match rep with
  | RaisesServiceException e | RaisesROSException e => ServiceError e
  | Responds resp =>
      match struct_unpack_B (result_type resp) with
      | [] => EmptyResultType
      | seed :: _ =>
          if seed =? RESULT_INVALID c then Unreachable
          else match joints resp with
               | [] => EmptyJoints seed
               | js :: _ => Solved (dict_zip (name js) (position_ js)) seed
               end
      end
  end.

(** A failed solve: [Unreachable] or [ServiceError]. *)
Definition failed (o : IKOutcome) : bool :=
  match o with
  | Unreachable | ServiceError _ => true
  | _ => false
  end.

(** A solve that found a joint configuration with at least one joint. *)
Definition solved (o : IKOutcome) : bool :=
  match o with
  | Solved j _ => bool_decide (j ≠ ∅)
  | _ => false
  end.

(** A response without the entry that [resp_seeds[0]] or [resp.joints[0]]
    reads: the script raises [IndexError] on it. *)
Definition malformed (o : IKOutcome) : bool :=
  match o with
  | EmptyResultType | EmptyJoints _ => true
  | _ => false
  end.

(** The poses sent to the IK service along a trace, in order. *)
Definition solves (t : list Event) : list PoseV :=
  omap (λ e, match e with EvIKService p => Some p | _ => None end) t.

(** The joint configurations sent to the limb along a trace, in order. *)
Definition moves (t : list Event) : list JointAngles :=
  omap (λ e, match e with EvMove j => Some j | _ => None end) t.

(** The calls to the gripper, the limb and the IK service. *)
Definition is_call (e : Event) : bool :=
  match e with
  | EvGripperOpen | EvGripperClose | EvIKService _ | EvMove _
  | EvEndpointPose => true
  | EvSleep _ | EvLogErr _ | EvPrint _ | EvPrintJoints _ => false
  end.

Definition calls (t : list Event) : list Event := List.filter is_call t.

(** The outcome of every solve of the events [new] that follow the history
    [h], in order: the service is asked with the history of that moment. *)
Fixpoint solve_outcomes (env : Env) (h new : list Event) : list IKOutcome :=
  match new with
  | [] => []
  | e :: new' =>
      match e with
      | EvIKService p => [outcome (consts env) (iksvc env h p)]
      | _ => []
      end ++ solve_outcomes env (h ++ [e]) new'
  end.

(** Every failed solve of [new] is followed at once by a logged error. *)
Fixpoint failures_logged (env : Env) (h new : list Event) : Prop :=
  match new with
  | [] => True
  | e :: new' =>
      match e with
      | EvIKService p =>
          failed (outcome (consts env) (iksvc env h p)) = true →
          ∃ m, head new' = Some (EvLogErr m)
      | _ => True
      end ∧ failures_logged env (h ++ [e]) new'
  end.

(** The three phases of the specification that solve and then move. *)
Inductive Phase := Approach | Descend | Retract.

Definition run_phase (env : Env) (self : PickAndPlace) (ph : Phase)
    (pose : loc) : M unit :=
  match ph with
  | Approach => _approach env self pose
  | Descend => _servo_to_pose env self pose
  | Retract => _retract env self
  end.

(** ** Trace semantics

    What each method adds to the trace, as a function of the history at the
    moment it starts. The lemmas of the next part show that the methods
    produce exactly these events. *)

Definition no_joint_angles : string :=
  "No Joint Angles provided for move_to_joint_positions. Staying put.".

Definition invalid_pose : string :=
  "INVALID POSE - No Valid Joint Solution Found.".

Definition seed_line (env : Env) (seed : Z) : string :=
  "IK Solution SUCCESS - Valid Joint Solution Found from Seed Type: "
  +:+ seed_str env seed.

(** The value [ik_request] returns. *)
Definition ik_value (o : IKOutcome) : result pyval :=
  match o with
  | Solved j _ => Ok (PyDict j)
  | Unreachable | ServiceError _ => Ok PyFalse
  | EmptyResultType | EmptyJoints _ => Raise IndexError
  end.

(** What [ik_request] prints and logs after the service call. *)
Definition ik_log (env : Env) (self : PickAndPlace) (o : IKOutcome) : list Event :=
  match o with
  | Solved j seed =>
      if _verbose self
      then [EvPrint (seed_line env seed); EvPrintJoints j;
            EvPrint "------------------"]
      else []
  | Unreachable => [EvLogErr invalid_pose]
  | ServiceError e => [EvLogErr ("Service call failed: " +:+ e)]
  | EmptyResultType => []
  | EmptyJoints seed =>
      if _verbose self then [EvPrint (seed_line env seed)] else []
  end.

(** What [_guarded_move_to_joint_position] does with a value. *)
Definition move_events (v : pyval) : list Event :=
  match v with
  | PyDict d => if bool_decide (d ≠ ∅) then [EvMove d] else [EvLogErr no_joint_angles]
  | PyFalse | PyNone => [EvLogErr no_joint_angles]
  end.

(** A piece of trace that depends on the history before it. *)
Definition Segment := list Event → list Event.

Definition seg (evs : list Event) : Segment := λ _, evs.

Definition seg_seq (f g : Segment) : Segment := λ h, f h ++ g (h ++ f h).

Declare Scope seg_scope.
Delimit Scope seg_scope with seg.
Bind Scope seg_scope with Segment.
Infix ">>" := seg_seq (at level 61, left associativity) : seg_scope.

(** One solve of the pose [p] and the move that follows it. *)
Definition phase_events (env : Env) (self : PickAndPlace) (p : PoseV) : Segment :=
  λ h, let o := outcome (consts env) (iksvc env h p) in
       EvIKService p :: ik_log env self o ++
       match ik_value o with
       | Ok v => move_events v
       | Raise _ => []
       end.

Definition phase_result (env : Env) (p : PoseV) (h : list Event) : result unit :=
  match ik_value (outcome (consts env) (iksvc env h p)) with
  | Ok _ => Ok tt
  | Raise e => Raise e
  end.

Definition retract_events (env : Env) (self : PickAndPlace) : Segment :=
  λ h, EvEndpointPose ::
       phase_events env self (raised (_hover_distance self) (endpoint_pose env h))
         (h ++ [EvEndpointPose]).

Fixpoint transit_events (env : Env) (self : PickAndPlace) (path : list PoseV)
  : Segment :=
  match path with
  | [] => seg []
  | p :: path' =>
      (seg [EvPrint "Came here"]
       >> phase_events env self (raised (_hover_distance self) p)
       >> transit_events env self path')%seg
  end.

Definition pick_events (env : Env) (self : PickAndPlace) (p : PoseV)
    (path : list PoseV) : Segment :=
  (seg [EvGripperOpen; EvSleep 1]
   >> phase_events env self (raised (_hover_distance self) p)
   >> phase_events env self p
   >> seg [EvGripperClose; EvSleep 1]
   >> retract_events env self
   >> transit_events env self path)%seg.

Definition place_events (env : Env) (self : PickAndPlace) (p : PoseV) : Segment :=
  (phase_events env self (raised (_hover_distance self) p)
   >> phase_events env self p
   >> seg [EvGripperOpen; EvSleep 1]
   >> retract_events env self)%seg.

(** The service never sends a response that lacks the first entry of
    [result_type] or of [joints]. *)
Definition well_formed (env : Env) : Prop :=
  ∀ h p, malformed (outcome (consts env) (iksvc env h p)) = false.

(** The cells a deep copy of the pose [p] adds to a heap of [n] cells. *)
Definition pose_cells (n : nat) (p : PoseV) : list obj :=
  [OPoint (position p); OQuaternion (orientation p); OPose n (n + 1)%nat].

(** The joint configurations that reach the limb after a solve. *)
Definition moved (o : IKOutcome) : list JointAngles :=
  match o with
  | Solved j _ => if bool_decide (j ≠ ∅) then [j] else []
  | _ => []
  end.

(** A fresh pose object and its two sub-objects at the end of a heap. *)
Definition fresh_pose (h : list obj) (p : Point) (q : Quaternion) : list obj :=
  h ++ [OPoint p; OQuaternion q; OPose (length h) (length h + 1)%nat].

(** A piece of trace whose last event is not a request to the IK service. *)
Definition quiet_end (a : list Event) : Prop :=
  match last a with
  | Some (EvIKService _) => False
  | _ => True
  end.

(** ** Sample data *)

Module Sample.
Local Set Warnings "-inexact-float".
Definition sdk : IKConstants :=
  {| RESULT_INVALID := 0; SEED_USER := 1; SEED_CURRENT := 2; SEED_NS_MAP := 3 |}.

(** The orientation and the first block pose of [main] (lines 302-306 and
    333-335). *)
Definition overhead_orientation : Quaternion :=
  mkQuaternion (-0.0249590815779) 0.999649402929 0.00737916180073
    0.00486450832011.

Definition block1 : PoseV :=
  mkPoseV (mkPoint 0.7 0.15 (-0.129)) overhead_orientation.

Definition block1_next : PoseV :=
  mkPoseV (mkPoint 0.7 0.64 (-0.129)) overhead_orientation.

(** A heap that holds the block pose at location 2. *)
Definition start : State :=
  {| heap := [OPoint (position block1); OQuaternion overhead_orientation;
              OPose 0%nat 1%nat];
     trace := [] |}.

Definition pnp : PickAndPlace := __init__ "left" 0.15 false.

Definition angles : JointState :=
  mkJointState ["left_w0"; "left_w1"] [0.5; 1.25]%float.

(** The joint configuration that [ik_request] makes of [angles]. *)
Definition solution : JointAngles := dict_zip (name angles) (position_ angles).

Definition valid : IKReply :=
  Responds (mkIKResponse [angles] [Byte.x02]).

Definition invalid : IKReply :=
  Responds (mkIKResponse [mkJointState [] []] [Byte.x00]).

Definition at_rest : PoseV :=
  mkPoseV (mkPoint 0.7 0.15 (-0.129)) overhead_orientation.

(** The service finds a solution at every call. *)
Definition always_solved : Env :=
  {| consts := sdk; iksvc := λ _ _, valid; endpoint_pose := λ _, at_rest |}.

(** The service reports no solution at every call. *)
Definition never_solved : Env :=
  {| consts := sdk; iksvc := λ _ _, invalid; endpoint_pose := λ _, at_rest |}.

(** The service call raises at every call. *)
Definition unavailable : Env :=
  {| consts := sdk;
     iksvc := λ _ _, RaisesServiceException "unavailable";
     endpoint_pose := λ _, at_rest |}.

(** No solution at the first call, a solution at every later one. *)
Definition first_unreachable : Env :=
  {| consts := sdk;
     iksvc := λ h _, match solves h with [] => invalid | _ => valid end;
     endpoint_pose := λ _, at_rest |}.

(** No solution at the second call only. *)
Definition second_unreachable : Env :=
  {| consts := sdk;
     iksvc := λ h _, match solves h with [_] => invalid | _ => valid end;
     endpoint_pose := λ _, at_rest |}.

Definition waypoint1 : PoseV :=
  mkPoseV (mkPoint 0.7 0.3 0.1) overhead_orientation.

Definition waypoint2 : PoseV :=
  mkPoseV (mkPoint 0.7 0.5 0.1) overhead_orientation.

(** A heap with the block pose at 2 and two waypoints at 5 and 8. *)
Definition with_path : State :=
  {| heap := [OPoint (position block1); OQuaternion overhead_orientation;
              OPose 0%nat 1%nat;
              OPoint (position waypoint1); OQuaternion overhead_orientation;
              OPose 3%nat 4%nat;
              OPoint (position waypoint2); OQuaternion overhead_orientation;
              OPose 6%nat 7%nat];
     trace := [] |}.

(** No solution at the fourth call (the first waypoint) only. *)
Definition waypoint_unreachable : Env :=
  {| consts := sdk;
     iksvc := λ h _, match solves h with [_; _; _] => invalid | _ => valid end;
     endpoint_pose := λ _, at_rest |}.
End Sample.

(** ** Runs that may stop

    The trace semantics again, now with the result of each step, so that it
    also covers the runs that an exception ends. *)

(** What a step adds to the trace and how it ends, given the history. *)
Definition Step := list Event → result unit * list Event.

Definition say (evs : list Event) : Step := λ _, (Ok tt, evs).

Definition phase_step (env : Env) (self : PickAndPlace) (p : PoseV) : Step :=
  λ h, (phase_result env p h, phase_events env self p h).

Definition retract_step (env : Env) (self : PickAndPlace) : Step :=
  λ h, (phase_result env
          (raised (_hover_distance self) (endpoint_pose env h))
          (h ++ [EvEndpointPose]),
        retract_events env self h).

(** Steps in a row: the first one that raises ends the run. *)
Fixpoint run_steps (steps : list Step) : Step :=
  λ h, match steps with
       | [] => (Ok tt, [])
       | f :: steps' =>
           match f h with
           | (Ok _, evs) =>
               let (r, evs') := run_steps steps' (h ++ evs) in (r, evs ++ evs')
           | (Raise e, evs) => (Raise e, evs)
           end
       end.

Definition transit_steps (env : Env) (self : PickAndPlace) (path : list PoseV)
  : list Step :=
  flat_map (λ w, [say [EvPrint "Came here"];
                  phase_step env self (raised (_hover_distance self) w)]) path.

Definition pick_steps (env : Env) (self : PickAndPlace) (p : PoseV)
    (path : list PoseV) : list Step :=
  [say [EvGripperOpen; EvSleep 1];
   phase_step env self (raised (_hover_distance self) p);
   phase_step env self p;
   say [EvGripperClose; EvSleep 1];
   retract_step env self]
  ++ transit_steps env self path.

Definition place_steps (env : Env) (self : PickAndPlace) (p : PoseV) : list Step :=
  [phase_step env self (raised (_hover_distance self) p);
   phase_step env self p;
   say [EvGripperOpen; EvSleep 1];
   retract_step env self].

(** What holds of a step, whatever the service answers: the limb moves on
    the non-empty answers of the solves only, and the step raises on a
    malformed response only, at once. *)
Definition sound_step (env : Env) (f : Step) : Prop :=
  ∀ h, let os := solve_outcomes env h (f h).2 in
       moves (f h).2 = mjoin (moved <$> os)
       ∧ match (f h).1 with
         | Ok _ => Forall (λ o, malformed o = false) os
         | Raise e =>
             e = IndexError
             ∧ ∃ os' o p,
                 os = os' ++ [o]
                 ∧ Forall (λ o, malformed o = false) os'
                 ∧ malformed o = true
                 ∧ last (calls (f h).2) = Some (EvIKService p)
         end.

(** ** More sample data *)

Module Sample2.
(** A response without any result type. *)
Definition truncated : IKReply := Responds (mkIKResponse [] []).

(** A solution at the first call, a truncated response at the second. *)
Definition second_truncated : Env :=
  {| consts := Sample.sdk;
     iksvc := λ h _, match solves h with
                     | [_] => truncated
                     | _ => Sample.valid
                     end;
     endpoint_pose := λ _, Sample.at_rest |}.

(** A response that reports a solution and names no joint. *)
Definition nameless : IKReply :=
  Responds (mkIKResponse [mkJointState [] []] [Byte.x02]).

Definition always_nameless : Env :=
  {| consts := Sample.sdk;
     iksvc := λ _ _, nameless;
     endpoint_pose := λ _, Sample.at_rest |}.
End Sample2.

(** ** The models of the simulated world

    [load_gazebo_models] (lines 194-248) and [delete_gazebo_models] (lines
    250-260) talk to the file system and to the services of Gazebo, not to
    the robot: they have a trace of their own. *)

Module Gazebo.

Inductive GzEvent :=
| GzGetPath (package : string)          (* rospkg.RosPack().get_path(package) *)
| GzRead (path : string)                (* open(path, "r") and read() *)
| GzWaitForService (service : string)   (* rospy.wait_for_service(service) *)
| GzSpawn (service model_name model_xml robot_namespace : string)
    (initial_pose : PoseV) (reference_frame : string)
                                        (* a call of a SpawnModel proxy *)
| GzDelete (model_name : string)        (* a call of the DeleteModel proxy *)
| GzLogErr (msg : string)               (* rospy.logerr(msg) *)
| GzLogInfo (msg : string).             (* rospy.loginfo(msg) *)

Inductive gz_exn :=
| ResourceNotFound (package : string)
| IOError (path : string)
| ServiceException (e : string).

Inductive gz_result (A : Type) :=
| Done (a : A)
| Raised (e : gz_exn).
Arguments Done {A} a.
Arguments Raised {A} e.

(** The file system and the services. A service call raises
    [ServiceException] or not as a function of the history, which ends with
    the call itself. *)
Record World := mkWorld {
  get_path : string → option string;
  read_file : string → option string;
  service_fails : list GzEvent → option string
}.

Definition G (A : Type) : Type := list GzEvent → gz_result A * list GzEvent.

Definition gret {A} (a : A) : G A := λ t, (Done a, t).

Definition gbind {A B} (m : G A) (k : A → G B) : G B :=
  λ t, match m t with
       | (Done a, t') => k a t'
       | (Raised e, t') => (Raised e, t')
       end.

Definition graise {A} (e : gz_exn) : G A := λ t, (Raised e, t).

Definition gemit (e : GzEvent) : G unit := λ t, (Done tt, t ++ [e]).

Declare Scope gz_scope.
Delimit Scope gz_scope with gz.
Notation "x <- c1 ;; c2" := (gbind c1 (λ x, c2))
  (at level 100, c1 at next level, right associativity) : gz_scope.
Notation "c1 ;;; c2" := (gbind c1 (λ _, c2))
  (at level 100, right associativity) : gz_scope.
Local Open Scope gz_scope.

(** [try: body except rospy.ServiceException, e: handler(e)] *)
Definition try_service (body : G unit) (handler : string → G unit) : G unit :=
  λ t, match body t with
       | (Raised (ServiceException e), t') => handler e t'
       | other => other
       end.

(** The line feed character, ['\n']. *)
Definition newline : Ascii.ascii := Ascii.ascii_of_nat 10.

(** [s.replace('\n', '')] *)
Fixpoint remove_newlines (s : string) : string :=
  match s with
  | EmptyString => EmptyString
  | String c s' =>
      if Ascii.eqb c newline then remove_newlines s'
      else String c (remove_newlines s')
  end.

Section Functions.
Variable w : World.

(** [rospkg.RosPack().get_path(package)] *)
Definition ros_get_path (package : string) : G string :=
  gemit (GzGetPath package) ;;;
  match get_path w package with
  | Some p => gret p
  | None => graise (ResourceNotFound package)
  end.

(** [with open(path, "r") as f: xml = f.read().replace('\n', '')] *)
Definition read_model (path : string) : G string :=
  gemit (GzRead path) ;;;
  match read_file w path with
  | Some content => gret (remove_newlines content)
  | None => graise (IOError path)
  end.

(** A call of a service proxy, a [SpawnModel] or the [DeleteModel] one. *)
Definition call (e : GzEvent) : G unit :=
  λ t, match service_fails w (t ++ [e]) with
       | Some err => (Raised (ServiceException err), t ++ [e])
       | None => (Done tt, t ++ [e])
       end.

(** The keyword arguments of [load_gazebo_models]. *)
Record LoadArgs := mkLoadArgs {
  table_pose : PoseV;
  table2_pose : PoseV;
  table_reference_frame : string;
  block1_pose : PoseV;
  block1_reference_frame : string;
  block2_pose : PoseV;
  block2_reference_frame : string;
  wall_pose : PoseV;
  wall_reference_frame : string
}.

(** Lines 194-248. *)
Definition load_gazebo_models (a : LoadArgs) : G unit :=
  pkg <- ros_get_path "project4" ;;
  let model_path := pkg +:+ "/models/" in
  table_xml <- read_model (model_path +:+ "cafe_table/model.sdf") ;;
  block1_xml <- read_model (model_path +:+ "block/block1.urdf") ;;
  block2_xml <- read_model (model_path +:+ "block/block2.urdf") ;;
  wall_xml <- read_model (model_path +:+ "wall/model.sdf") ;;
  gemit (GzWaitForService "/gazebo/spawn_sdf_model") ;;;
  try_service
    (call (GzSpawn "/gazebo/spawn_sdf_model" "cafe_table_1" table_xml "/"
             (table_pose a) (table_reference_frame a)) ;;;
     call (GzSpawn "/gazebo/spawn_sdf_model" "cafe_table_2" table_xml "/"
             (table2_pose a) (table_reference_frame a)) ;;;
     call (GzSpawn "/gazebo/spawn_sdf_model" "wall" wall_xml "/"
             (wall_pose a) (wall_reference_frame a)))
    (λ e, gemit (GzLogErr ("Spawn SDF service call failed: " +:+ e))) ;;;
  gemit (GzWaitForService "/gazebo/spawn_urdf_model") ;;;
  try_service
    (call (GzSpawn "/gazebo/spawn_urdf_model" "block1" block1_xml "/"
             (block1_pose a) (block1_reference_frame a)) ;;;
     call (GzSpawn "/gazebo/spawn_urdf_model" "block2" block2_xml "/"
             (block2_pose a) (block2_reference_frame a)))
    (λ e, gemit (GzLogErr ("Spawn URDF service call failed: " +:+ e))).

(** Lines 250-260. *)
Definition delete_gazebo_models : G unit :=
  try_service
    (call (GzDelete "cafe_table") ;;;
     call (GzDelete "block"))
    (λ e, gemit (GzLogInfo ("Delete Model service call failed: " +:+ e))).

End Functions.

(** The default values of the keyword arguments (lines 194-202): a pose
    given by its position has the zero orientation of a new message. *)
Definition at_position (x y z : float) : PoseV :=
  mkPoseV (mkPoint x y z) (mkQuaternion 0 0 0 0).

#[local] Set Warnings "-inexact-float".
Definition defaults : LoadArgs :=
  {| table_pose := at_position 1.1 (-0.2) 0.0;
     table2_pose := at_position 1.1 1.0 0.0;
     table_reference_frame := "world";
     block1_pose := at_position 0.6725 0.1265 0.7825;
     block1_reference_frame := "world";
     block2_pose := at_position 0.6725 0.7365 0.7825;
     block2_reference_frame := "world";
     wall_pose := at_position 1.3 0.35 1;
     wall_reference_frame := "world" |}.
#[local] Set Warnings "inexact-float".

(** The model names of the spawn calls of a trace, in order. *)
Definition spawned (t : list GzEvent) : list string :=
  omap (λ e, match e with GzSpawn _ n _ _ _ _ => Some n | _ => None end) t.



(** The model names of the delete calls of a trace, in order. *)
Definition deleted (t : list GzEvent) : list string :=
  omap (λ e, match e with GzDelete n => Some n | _ => None end) t.

(** The services waited for or called along a trace. *)
Definition touches_service (e : GzEvent) : bool :=
  match e with
  | GzWaitForService _ | GzSpawn _ _ _ _ _ _ | GzDelete _ => true
  | _ => false
  end.

(** The files that [load_gazebo_models] reads, in order, for a package
    path. *)
Definition model_files (pkg : string) : list string :=
  [(pkg +:+ "/models/") +:+ "cafe_table/model.sdf";
   (pkg +:+ "/models/") +:+ "block/block1.urdf";
   (pkg +:+ "/models/") +:+ "block/block2.urdf";
   (pkg +:+ "/models/") +:+ "wall/model.sdf"].


(** A world for the examples: one package, whose model files hold a line
    break, and a spawn service that refuses the second table. *)
Definition sample_world : World :=
  {| get_path := λ pkg, if String.eqb pkg "project4" then Some "/ws/project4" else None;
     read_file := λ _, Some ("<sdf>" +:+ String newline "</sdf>");
     service_fails := λ t,
       match last t with
       | Some (GzSpawn _ "cafe_table_2" _ _ _ _) => Some "refused"
       | _ => None
       end |}.

(** The same world without the URDF of the second block. *)
Definition sample_world_missing : World :=
  {| get_path := get_path sample_world;
     read_file := λ path,
       if String.eqb path "/ws/project4/models/block/block2.urdf" then None
       else read_file sample_world path;
     service_fails := service_fails sample_world |}.

End Gazebo.

(** ** The pose files of [main] (lines 314-329)

    [main] reads two files of way points, one line for each pose, and
    converts three columns of each line with [float]. Nothing of this touches
    the robot: it is a function of the text of the file. *)

Module PoseFile.

(** [float] raises [ValueError], an index out of range [IndexError]. *)
Inductive read_exn :=
| ValueError
| Builtin (e : exn).

Inductive read_result (A : Type) :=
| Read (a : A)
| Fails (e : read_exn).
Arguments Read {A} a.
Arguments Fails {A} e.

Definition rbind {A B} (r : read_result A) (k : A → read_result B)
    : read_result B :=
  match r with
  | Read a => k a
  | Fails e => Fails e
  end.

Declare Scope read_scope.
Delimit Scope read_scope with read.
Notation "x <- c1 ;; c2" := (rbind c1 (λ x, c2))
  (at level 100, c1 at next level, right associativity) : read_scope.
Local Open Scope read_scope.

(** The characters [','] and ['\n']. *)
Definition comma : Ascii.ascii := Ascii.ascii_of_nat 44.
Definition newline : Ascii.ascii := Ascii.ascii_of_nat 10.

(** [poseFile.readlines()] on the text of the file: every line keeps its
    line feed, and the text after the last line feed, if there is any, is a
    line as well. *)
Fixpoint readlines (text : string) : list string :=
  match text with
  | EmptyString => []
  | String c text' =>
      if Ascii.eqb c newline then String c EmptyString :: readlines text'
      else match readlines text' with
           | [] => [String c EmptyString]
           | l :: ls => String c l :: ls
           end
  end.

(** [p[:-1]]: all but the last character; the empty string stays empty. *)
Fixpoint drop_last (p : string) : string :=
  match p with
  | EmptyString => EmptyString
  | String c p' =>
      match p' with
      | EmptyString => EmptyString
      | String _ _ => String c (drop_last p')
      end
  end.

(** [s.split(sep)] for a separator of one character: one field more than
    there are separators, empty fields included. *)
Fixpoint split (sep : Ascii.ascii) (s : string) : list string :=
  match s with
  | EmptyString => [EmptyString]
  | String c s' =>
      if Ascii.eqb c sep then EmptyString :: split sep s'
      else match split sep s' with
           | [] => [String c EmptyString]
           | f :: fs => String c f :: fs
           end
  end.

Section Reading.

(** Python's [float] on a string: a number, or [None] where it raises
    [ValueError]. *)
Variable float : string → option PrimFloat.float.
Variable overhead_orientation : Quaternion.

Definition to_float (s : string) : read_result PrimFloat.float :=
  match float s with
  | Some x => Read x
  | None => Fails ValueError
  end.

(** [p[i]] *)
Definition item (p : list string) (i : Z) : read_result string :=
  match py_getitem p i with
  | Ok f => Read f
  | Raise e => Fails (Builtin e)
  end.

(** Lines 318-320: the arguments are evaluated from left to right. *)
Definition new_pose (p : list string) : read_result PoseV :=
  p0 <- item p 0 ;;
  x <- to_float p0 ;;
  p1 <- item p 1 ;;
  y <- to_float p1 ;;
  p2 <- item p 2 ;;
  z <- to_float p2 ;;
  Read (mkPoseV (mkPoint x y z) overhead_orientation).

(** Lines 317-320: the loop appends to [allPoses] until a line raises. *)
Fixpoint append_poses (poses : list (list string)) (allPoses : list PoseV)
    : read_result (list PoseV) :=
  match poses with
  | [] => Read allPoses
  | p :: poses' =>
      pose <- new_pose p ;;
      append_poses poses' (allPoses ++ [pose])
  end.

(** Lines 315-320, and 324-329 likewise, from the text of the file. *)
Definition read_poses (text : string) : read_result (list PoseV) :=
  let poses_ := readlines text in
  let poses := (λ p, split comma (drop_last p)) <$> poses_ in
  append_poses poses [].

End Reading.

(** *** Vocabulary *)

(** How often a character occurs in a string. *)
Fixpoint occurrences (c : Ascii.ascii) (s : string) : nat :=
  match s with
  | EmptyString => 0%nat
  | String c' s' =>
      ((if Ascii.eqb c' c then 1 else 0) + occurrences c s')%nat
  end.

(** A field of a table: no comma and no line feed in it. *)
Definition plain (f : string) : Prop :=
  occurrences comma f = 0%nat ∧ occurrences newline f = 0%nat.

Definition plain_row (row : string * string * string) : Prop :=
  plain row.1.1 ∧ plain row.1.2 ∧ plain row.2.

(** A text of whole lines: empty, or ended by a line feed. *)
Fixpoint whole_lines (t : string) : bool :=
  match t with
  | EmptyString => true
  | String c t' =>
      match t' with
      | EmptyString => Ascii.eqb c newline
      | String _ _ => whole_lines t'
      end
  end.

(** A line of three columns, without its last character. *)
Definition columns (a b c : string) : string :=
  a +:+ String comma (b +:+ String comma c).

(** The text of a table of three columns, every row ended by a line feed. *)
Fixpoint table (rows : list (string * string * string)) : string :=
  match rows with
  | [] => EmptyString
  | (a, b, c) :: rows' =>
      columns a b c +:+ String newline (table rows')
  end.

Definition pose_at (o : Quaternion)
    (v : PrimFloat.float * PrimFloat.float * PrimFloat.float) : PoseV :=
  mkPoseV (mkPoint v.1.1 v.1.2 v.2) o.

(** [float] on the three fields of a row gives the three numbers. *)
Definition converts (float : string → option PrimFloat.float)
    (row : string * string * string)
    (v : PrimFloat.float * PrimFloat.float * PrimFloat.float) : Prop :=
  float row.1.1 = Some v.1.1 ∧ float row.1.2 = Some v.1.2 ∧
  float row.2 = Some v.2.

(** *** Sample data *)

Local Set Warnings "-inexact-float".

(** Python's [float] on the strings of the sample files. *)
Definition sample_float (s : string) : option PrimFloat.float :=
  ({[ "0.7" := 0.7%float; "0.15" := 0.15%float; "0.64" := 0.64%float;
      "-0.129" := (-0.129)%float; "-0.12" := (-0.12)%float ]}
     : gmap string PrimFloat.float) !! s.

Definition sample_rows : list (string * string * string) :=
  [("0.7", "0.15", "-0.129"); ("0.7", "0.64", "-0.129")].

Definition sample_values
    : list (PrimFloat.float * PrimFloat.float * PrimFloat.float) :=
  [(0.7, 0.15, -0.129)%float; (0.7, 0.64, -0.129)%float].

(** The first sample row with the last character of its last field cut
    off. *)
Definition sample_cut : PoseV :=
  mkPoseV (mkPoint 0.7 0.15 (-0.12)) Sample.overhead_orientation.

End PoseFile.

(** * Proofs *)

(** ** Floats *)

Lemma SFcompare_refl (s : spec_float) : s ≠ S754_nan → SFcompare s s = Some Eq.
Proof.
  destruct s as [sg|sg| |sg m e]; simpl; try congruence; intros _.
  - by destruct sg.
  - rewrite Z.compare_refl, Pos.compare_cont_refl. by destruct sg.
Qed.

Lemma same_number_refl (a : float) : same_number a a = true.
Proof.
  unfold same_number, PrimFloat.is_nan. rewrite FloatAxioms.eqb_spec. unfold SFeqb.
  destruct (Prim2SF a) eqn:E; try done; by rewrite SFcompare_refl.
Qed.

Lemma eqb_zero_inv (d : float) :
  PrimFloat.eqb d 0 = true → ∃ sg, Prim2SF d = S754_zero sg.
Proof.
  rewrite FloatAxioms.eqb_spec. change (Prim2SF 0) with (S754_zero false). unfold SFeqb.
  destruct (Prim2SF d) as [sg|sg| |sg m e]; simpl; try discriminate.
  - by exists sg.
  - by destruct sg.
  - by destruct sg.
Qed.

Lemma SFadd_zero_r (s : spec_float) (sg : bool) :
  SF64add s (S754_zero sg) = s ∨
  ∃ sg', s = S754_zero sg' ∧ SF64add s (S754_zero sg) = S754_zero false.
Proof.
  destruct s as [sz|sz| |sz m e]; simpl; try by left.
  destruct sz, sg; simpl; eauto.
Qed.

Lemma add_zero_same (z d : float) :
  PrimFloat.eqb d 0 = true → same_number (PrimFloat.add z d) z = true.
Proof.
  intros [sg Hd]%eqb_zero_inv.
  unfold same_number, PrimFloat.is_nan.
  rewrite !FloatAxioms.eqb_spec, add_spec, Hd. unfold SFeqb.
  destruct (SFadd_zero_r (Prim2SF z) sg) as [->|(sg' & -> & ->)]; [|done].
  destruct (Prim2SF z) eqn:E; try done; by rewrite SFcompare_refl.
Qed.

Lemma add_zero_exact (z : float) :
  PrimFloat.classify z ≠ NZero → PrimFloat.add z 0 = z.
Proof.
  intros Hz.
  assert (E : Prim2SF (PrimFloat.add z 0) = Prim2SF z).
  { rewrite add_spec. change (Prim2SF 0) with (S754_zero false).
    rewrite classify_spec in Hz. unfold SF64add, SF64classify in *.
    destruct (Prim2SF z) as [[]|[]| |sz m e]; simpl in *; congruence. }
  rewrite <- (SF2Prim_Prim2SF (PrimFloat.add z 0)), E.
  apply SF2Prim_Prim2SF.
Qed.

(** ** The heap *)

Lemma lookup_app_plus (h k : list obj) (i : nat) :
  (h ++ k) !! (length h + i)%nat = k !! i.
Proof. rewrite lookup_app_r by lia. f_equal. lia. Qed.

Lemma lookup_app_len (h k : list obj) : (h ++ k) !! length h = k !! 0%nat.
Proof. rewrite <- (lookup_app_plus h k 0). f_equal. lia. Qed.

Lemma insert_app_len (h k : list obj) (o : obj) :
  <[length h := o]> (h ++ k) = h ++ <[0%nat := o]> k.
Proof. rewrite <- (Nat.add_0_r (length h)) at 1. apply insert_app_r. Qed.

Lemma heap_pose_inv (h : list obj) (l : loc) (pv : PoseV) :
  heap_pose h l = Some pv →
  ∃ lp lq, h !! l = Some (OPose lp lq)
           ∧ h !! lp = Some (OPoint (position pv))
           ∧ h !! lq = Some (OQuaternion (orientation pv)).
Proof.
  unfold heap_pose. intros H.
  destruct (h !! l) as [[| |lp lq]|]; try done.
  destruct (h !! lp) as [[p| |]|] eqn:Ep; try done.
  destruct (h !! lq) as [[|q|]|] eqn:Eq; try done.
  injection H as <-. eauto.
Qed.

Lemma heap_pose_intro (h : list obj) (l lp lq : loc) (p : Point) (q : Quaternion) :
  h !! l = Some (OPose lp lq) → h !! lp = Some (OPoint p) →
  h !! lq = Some (OQuaternion q) → heap_pose h l = Some (mkPoseV p q).
Proof. unfold heap_pose. by intros -> -> ->. Qed.

Lemma heap_pose_app (h k : list obj) (l : loc) (pv : PoseV) :
  heap_pose h l = Some pv → heap_pose (h ++ k) l = Some pv.
Proof.
  intros (lp & lq & Hl & Hp & Hq)%heap_pose_inv. destruct pv as [p q].
  apply (heap_pose_intro _ l lp lq); by apply lookup_app_l_Some.
Qed.

Lemma heap_pose_cells (h : list obj) (pv : PoseV) :
  heap_pose (h ++ pose_cells (length h) pv) (length h + 2)%nat = Some pv.
Proof.
  destruct pv as [p q]. unfold pose_cells.
  apply (heap_pose_intro _ _ (length h) (length h + 1)%nat).
  - by rewrite lookup_app_plus.
  - by rewrite lookup_app_len.
  - by rewrite lookup_app_plus.
Qed.

(** ** The methods, one by one *)

(** Runs a computation whose heap lookups are all known. *)
Ltac reduce := progress (cbv beta iota; cbn [heap trace]).
Ltac run :=
  repeat first
    [ reduce
    | match goal with
      | H : ?h !! ?l = Some _ |- context [?h !! ?l] => rewrite H
      end ].

Lemma read_pose_run (h : list obj) (t : list Event) (l : loc) (pv : PoseV) :
  heap_pose h l = Some pv → read_pose l (mkState h t) = (Ok pv, mkState h t).
Proof.
  intros (lp & lq & Hl & Hp & Hq)%heap_pose_inv.
  unfold read_pose, get_position, get_orientation, load_point, load_quaternion,
    bind, load, ret.
  run. by destruct pv.
Qed.

Lemma deepcopy_run (h : list obj) (t : list Event) (l : loc) (pv : PoseV) :
  heap_pose h l = Some pv →
  deepcopy l (mkState h t)
  = (Ok (length h + 2)%nat, mkState (h ++ pose_cells (length h) pv) t).
Proof.
  intros (lp & lq & Hl & Hp & Hq)%heap_pose_inv.
  unfold deepcopy, load_point, load_quaternion, bind, load, ret, alloc.
  run. rewrite !length_app. cbn [length]. unfold pose_cells.
  rewrite <- !app_assoc. cbn [app].
  by replace (length h + 1 + 1)%nat with (length h + 2)%nat by lia.
Qed.

Lemma hover_run (self : PickAndPlace) (h : list obj) (t : list Event)
    (l : loc) (pv : PoseV) :
  heap_pose h l = Some pv →
  hover self l (mkState h t)
  = (Ok (length h + 2)%nat,
     mkState (h ++ pose_cells (length h) (raised (_hover_distance self) pv)) t).
Proof.
  intros H. unfold hover, bind. rewrite (deepcopy_run h t l pv H).
  unfold get_position_z, set_position_z, get_position, load_point, bind, load,
    store, ret, pose_cells.
  repeat first [reduce | rewrite lookup_app_plus | rewrite lookup_app_len
               | progress cbn [lookup list_lookup]].
  rewrite insert_app_len. by destruct pv as [[] ?].
Qed.

Lemma app_snoc {A} (t : list A) (e : A) (l : list A) : (t ++ [e]) ++ l = t ++ e :: l.
Proof. by rewrite <- app_assoc. Qed.

Lemma getitem_head {A} (l : list A) :
  py_getitem l 0 = match l with [] => Raise IndexError | x :: _ => Ok x end.
Proof.
  unfold py_getitem. destruct l as [|x l]; [done|].
  cbn [length]. replace (0 <? 0) with false by done.
  replace ((0 <=? 0) && (0 <? Z.of_nat (S (length l)))) with true; [done|].
  symmetry. apply andb_true_iff. split; [done|]. apply Z.ltb_lt. lia.
Qed.

Lemma ik_request_run (env : Env) (self : PickAndPlace) (h : list obj)
    (t : list Event) (l : loc) (pv : PoseV) :
  heap_pose h l = Some pv →
  let o := outcome (consts env) (iksvc env t pv) in
  ik_request env self l (mkState h t)
  = (ik_value o, mkState h (t ++ EvIKService pv :: ik_log env self o)).
Proof.
  intros H o. subst o. unfold ik_request, bind at 1.
  rewrite (read_pose_run h t l pv H).
  unfold history, emit, bind at 1 2. reduce.
  unfold outcome.
  destruct (iksvc env t pv) as [resp|e|e].
  - unfold bind at 1, lift. rewrite getitem_head.
    destruct (struct_unpack_B (result_type resp)) as [|seed seeds]; [done|].
    destruct (seed =? RESULT_INVALID (consts env)); cbn [negb].
    + unfold logerr, emit, bind, ret. reduce. cbn [ik_value ik_log].
      by rewrite app_snoc.
    + unfold bind at 1 2, lift. rewrite getitem_head.
      destruct (joints resp) as [|js jss]; cbn [ik_value ik_log];
        destruct (_verbose self); unfold when, print, emit, bind, ret; try reduce;
        rewrite ?app_snoc; done.
  - unfold logerr, emit, bind, ret. reduce. cbn [ik_value ik_log].
    by rewrite app_snoc.
  - unfold logerr, emit, bind, ret. reduce. cbn [ik_value ik_log].
    by rewrite app_snoc.
Qed.

Lemma guarded_move_run (v : pyval) (h : list obj) (t : list Event) :
  _guarded_move_to_joint_position v (mkState h t)
  = (Ok tt, mkState h (t ++ move_events v)).
Proof.
  unfold _guarded_move_to_joint_position, move_events, logerr, emit.
  destruct v as [| |d]; cbn [truthy]; try done.
  by destruct (bool_decide (d ≠ ∅)).
Qed.

Lemma servo_run (env : Env) (self : PickAndPlace) (h : list obj)
    (t : list Event) (l : loc) (pv : PoseV) :
  heap_pose h l = Some pv →
  _servo_to_pose env self l (mkState h t)
  = (phase_result env pv t, mkState h (t ++ phase_events env self pv t)).
Proof.
  intros H. unfold _servo_to_pose, bind.
  rewrite (ik_request_run env self h t l pv H).
  unfold phase_result, phase_events.
  destruct (ik_value _) as [v|e].
  - rewrite guarded_move_run. by rewrite <- app_assoc.
  - by rewrite app_nil_r.
Qed.

Lemma approach_run (env : Env) (self : PickAndPlace) (h : list obj)
    (t : list Event) (l : loc) (pv : PoseV) :
  heap_pose h l = Some pv →
  let p := raised (_hover_distance self) pv in
  _approach env self l (mkState h t)
  = (phase_result env p t,
     mkState (h ++ pose_cells (length h) p) (t ++ phase_events env self p t)).
Proof.
  intros H p. unfold _approach, bind at 1. rewrite (hover_run self h t l pv H).
  apply (servo_run env self _ t _ p), heap_pose_cells.
Qed.

Lemma goTo_run (env : Env) (self : PickAndPlace) (h : list obj)
    (t : list Event) (l : loc) (pv : PoseV) :
  heap_pose h l = Some pv →
  let p := raised (_hover_distance self) pv in
  goTo env self l (mkState h t)
  = (phase_result env p t,
     mkState (h ++ pose_cells (length h) p) (t ++ phase_events env self p t)).
Proof. apply approach_run. Qed.

Lemma bind_run {A B} (m : M A) (k : A → M B) (s s' : State) (a : A) :
  m s = (Ok a, s') → bind m k s = k a s'.
Proof. unfold bind. by intros ->. Qed.

Ltac run_setter :=
  unfold fresh_pose, new_Pose, set_position_x, set_position_y, set_position_z,
    set_orientation_x, set_orientation_y, set_orientation_z, set_orientation_w,
    get_position, get_orientation, load_point, load_quaternion, bind, load,
    store, alloc, ret;
  repeat first
    [ reduce
    | rewrite lookup_app_plus
    | rewrite lookup_app_len
    | rewrite insert_app_len
    | rewrite insert_app_r
    | progress cbn [lookup list_lookup insert list_insert px py pz qx qy qz qw] ];
  try done.

Lemma new_Pose_run (h : list obj) (t : list Event) :
  new_Pose (mkState h t)
  = (Ok (length h + 2)%nat,
     mkState (fresh_pose h (mkPoint 0 0 0) (mkQuaternion 0 0 0 0)) t).
Proof.
  run_setter. rewrite !length_app. cbn [length]. rewrite <- !app_assoc. cbn [app].
  by replace (length h + 1 + 1)%nat with (length h + 2)%nat by lia.
Qed.

Lemma set_position_x_run h t p q v :
  set_position_x (length h + 2)%nat v (mkState (fresh_pose h p q) t)
  = (Ok tt, mkState (fresh_pose h (mkPoint v (py p) (pz p)) q) t).
Proof. run_setter. Qed.

Lemma set_position_y_run h t p q v :
  set_position_y (length h + 2)%nat v (mkState (fresh_pose h p q) t)
  = (Ok tt, mkState (fresh_pose h (mkPoint (px p) v (pz p)) q) t).
Proof. run_setter. Qed.

Lemma set_position_z_run h t p q v :
  set_position_z (length h + 2)%nat v (mkState (fresh_pose h p q) t)
  = (Ok tt, mkState (fresh_pose h (mkPoint (px p) (py p) v) q) t).
Proof. run_setter. Qed.

Lemma set_orientation_x_run h t p q v :
  set_orientation_x (length h + 2)%nat v (mkState (fresh_pose h p q) t)
  = (Ok tt, mkState (fresh_pose h p (mkQuaternion v (qy q) (qz q) (qw q))) t).
Proof. run_setter. Qed.

Lemma set_orientation_y_run h t p q v :
  set_orientation_y (length h + 2)%nat v (mkState (fresh_pose h p q) t)
  = (Ok tt, mkState (fresh_pose h p (mkQuaternion (qx q) v (qz q) (qw q))) t).
Proof. run_setter. Qed.

Lemma set_orientation_z_run h t p q v :
  set_orientation_z (length h + 2)%nat v (mkState (fresh_pose h p q) t)
  = (Ok tt, mkState (fresh_pose h p (mkQuaternion (qx q) (qy q) v (qw q))) t).
Proof. run_setter. Qed.

Lemma set_orientation_w_run h t p q v :
  set_orientation_w (length h + 2)%nat v (mkState (fresh_pose h p q) t)
  = (Ok tt, mkState (fresh_pose h p (mkQuaternion (qx q) (qy q) (qz q) v)) t).
Proof. run_setter. Qed.

Lemma retract_run (env : Env) (self : PickAndPlace) (h : list obj)
    (t : list Event) :
  let p := raised (_hover_distance self) (endpoint_pose env t) in
  _retract env self (mkState h t)
  = (phase_result env p (t ++ [EvEndpointPose]),
     mkState (h ++ pose_cells (length h) p) (t ++ retract_events env self t)).
Proof.
  intros p.
  assert (Hp : heap_pose (h ++ pose_cells (length h) p) (length h + 2)%nat = Some p)
    by apply heap_pose_cells.
  pose proof (servo_run env self _ (t ++ [EvEndpointPose]) _ p Hp) as Hrun.
  unfold _servo_to_pose in Hrun.
  unfold _retract.
  erewrite bind_run by reflexivity.
  erewrite bind_run by reflexivity. reduce.
  erewrite bind_run by apply new_Pose_run.
  erewrite bind_run by apply set_position_x_run.
  erewrite bind_run by apply set_position_y_run.
  erewrite bind_run by apply set_position_z_run.
  erewrite bind_run by apply set_orientation_x_run.
  erewrite bind_run by apply set_orientation_y_run.
  erewrite bind_run by apply set_orientation_z_run.
  erewrite bind_run by apply set_orientation_w_run.
  cbn [px py pz qx qy qz qw].
  unfold fresh_pose. unfold pose_cells, p, raised in Hrun. cbn [position orientation] in Hrun.
  destruct (endpoint_pose env t) as [[x y z] [a b c d]] eqn:E. cbn [px py pz qx qy qz qw position orientation] in *.
  rewrite Hrun. unfold retract_events. rewrite E. unfold pose_cells, p, raised.
  cbn [px py pz qx qy qz qw position orientation]. by rewrite app_snoc.
Qed.

(** ** Whole sequences, for a service that answers in good form *)

Lemma phase_result_ok (env : Env) (p : PoseV) (h : list Event) :
  well_formed env → phase_result env p h = Ok tt.
Proof.
  intros Hwf. unfold phase_result. specialize (Hwf h p).
  by destruct (outcome _ _).
Qed.

Lemma gripper_open_run (h : list obj) (t : list Event) :
  gripper_open (mkState h t) = (Ok tt, mkState h (t ++ [EvGripperOpen; EvSleep 1])).
Proof. unfold gripper_open, sleep, emit, bind. reduce. by rewrite app_snoc. Qed.

Lemma gripper_close_run (h : list obj) (t : list Event) :
  gripper_close (mkState h t) = (Ok tt, mkState h (t ++ [EvGripperClose; EvSleep 1])).
Proof. unfold gripper_close, sleep, emit, bind. reduce. by rewrite app_snoc. Qed.

Lemma transit_run (env : Env) (self : PickAndPlace) (path : list loc)
    (pvs : list PoseV) :
  well_formed env →
  ∀ (h : list obj) (t : list Event),
    Forall2 (λ l pv, heap_pose h l = Some pv) path pvs →
    ∃ h', for_each path (λ p_, print "Came here" ;;; goTo env self p_) (mkState h t)
          = (Ok tt, mkState (h ++ h') (t ++ transit_events env self pvs t)).
Proof.
  intros Hwf. revert pvs. induction path as [|l path IH]; intros pvs h t Hall.
  - apply Forall2_nil_inv_l in Hall as ->. exists []. cbn.
    by rewrite !app_nil_r.
  - apply Forall2_cons_inv_l in Hall as (pv & pvs' & Hl & Hall & ->).
    cbn [for_each transit_events].
    erewrite bind_run; last first.
    { erewrite bind_run by reflexivity. reduce.
      rewrite (goTo_run env self h _ l pv Hl). by rewrite phase_result_ok. }
    edestruct (IH pvs') as [h' ->].
    { eapply Forall2_impl; [exact Hall|]. intros ???. by apply heap_pose_app. }
    exists (pose_cells (length h) (raised (_hover_distance self) pv) ++ h').
    unfold seg_seq, seg. cbn [app]. rewrite <- !app_assoc. cbn [app].
    by rewrite app_assoc.
Qed.

Lemma pick_run (env : Env) (self : PickAndPlace) (h : list obj)
    (t : list Event) (pose : loc) (pv : PoseV) (path : list loc)
    (pvs : list PoseV) :
  well_formed env →
  heap_pose h pose = Some pv →
  Forall2 (λ l pv, heap_pose h l = Some pv) path pvs →
  ∃ h', pick env self pose path (mkState h t)
        = (Ok tt, mkState (h ++ h') (t ++ pick_events env self pv pvs t)).
Proof.
  intros Hwf Hpose Hpath. unfold pick.
  erewrite bind_run by apply gripper_open_run.
  erewrite bind_run;
    [|rewrite (approach_run env self _ _ pose pv Hpose); by rewrite phase_result_ok].
  erewrite bind_run; last first.
  { rewrite (servo_run env self _ _ pose pv) by by apply heap_pose_app.
    by rewrite phase_result_ok. }
  erewrite bind_run by apply gripper_close_run.
  erewrite bind_run; [|rewrite retract_run; by rewrite phase_result_ok].
  edestruct (transit_run env self path pvs Hwf) as [h' ->].
  { eapply Forall2_impl; [exact Hpath|]. intros ???.
    rewrite <- app_assoc. by apply heap_pose_app. }
  eexists. rewrite <- !(app_assoc h). f_equal. f_equal.
  unfold pick_events, seg_seq, seg. by rewrite <- !app_assoc.
Qed.

Lemma place_run (env : Env) (self : PickAndPlace) (h : list obj)
    (t : list Event) (pose : loc) (pv : PoseV) :
  well_formed env →
  heap_pose h pose = Some pv →
  ∃ h', place env self pose (mkState h t)
        = (Ok tt, mkState (h ++ h') (t ++ place_events env self pv t)).
Proof.
  intros Hwf Hpose. unfold place.
  erewrite bind_run;
    [|rewrite (approach_run env self _ _ pose pv Hpose); by rewrite phase_result_ok].
  erewrite bind_run; last first.
  { rewrite (servo_run env self _ _ pose pv) by by apply heap_pose_app.
    by rewrite phase_result_ok. }
  erewrite bind_run by apply gripper_open_run.
  rewrite retract_run, phase_result_ok by done.
  eexists. rewrite <- !(app_assoc h). f_equal. f_equal.
  unfold place_events, seg_seq, seg. by rewrite <- !app_assoc.
Qed.

(** ** Reading a trace *)

Lemma solves_app (a b : list Event) : solves (a ++ b) = solves a ++ solves b.
Proof. apply omap_app. Qed.

Lemma moves_app (a b : list Event) : moves (a ++ b) = moves a ++ moves b.
Proof. apply omap_app. Qed.

Lemma calls_app (a b : list Event) : calls (a ++ b) = calls a ++ calls b.
Proof. apply List.filter_app. Qed.

Lemma solve_outcomes_app (env : Env) (a b h : list Event) :
  solve_outcomes env h (a ++ b)
  = solve_outcomes env h a ++ solve_outcomes env (h ++ a) b.
Proof.
  revert h. induction a as [|e a IH]; intros h; cbn [app solve_outcomes].
  - by rewrite app_nil_r.
  - by rewrite IH, <- !app_assoc.
Qed.

Lemma solve_outcomes_quiet (env : Env) (a h : list Event) :
  solves a = [] → solve_outcomes env h a = [].
Proof.
  revert h. induction a as [|e a IH]; intros h Ha; [done|].
  destruct e; try done; cbn; apply IH, Ha.
Qed.

Lemma quiet_end_app (a b : list Event) :
  quiet_end a → quiet_end b → quiet_end (a ++ b).
Proof. unfold quiet_end. rewrite last_app. by destruct (last b). Qed.

Lemma quiet_end_app_r (a b : list Event) :
  b ≠ [] → quiet_end b → quiet_end (a ++ b).
Proof.
  unfold quiet_end. rewrite last_app. intros Hb%last_is_Some.
  by destruct Hb as [e ->].
Qed.

Lemma failures_logged_app (env : Env) (a b h : list Event) :
  failures_logged env h a → quiet_end a →
  failures_logged env (h ++ a) b → failures_logged env h (a ++ b).
Proof.
  revert h. induction a as [|e a IH]; intros h Ha Hlast Hb.
  - by rewrite app_nil_r in Hb.
  - cbn [app failures_logged]. destruct Ha as [He Ha]. split.
    + destruct e; try done. intros Hf. destruct (He Hf) as [m Hm].
      exists m. by destruct a.
    + apply IH; [done| |by rewrite <- app_assoc].
      destruct a as [|e' a]; [done|]. done.
Qed.

Lemma failures_logged_quiet (env : Env) (a h : list Event) :
  solves a = [] → failures_logged env h a.
Proof.
  revert h. induction a as [|e a IH]; intros h Ha; [done|].
  destruct e; try done; cbn; split; try done; apply IH, Ha.
Qed.

(** *** One phase *)

Lemma ik_log_quiet (env : Env) (self : PickAndPlace) (o : IKOutcome) :
  solves (ik_log env self o) = [] ∧ moves (ik_log env self o) = []
  ∧ calls (ik_log env self o) = [].
Proof. destruct o; cbn; by destruct (_verbose self). Qed.

Lemma move_events_moves (o : IKOutcome) :
  match ik_value o with
  | Ok v => solves (move_events v) = [] ∧ moves (move_events v) = moved o
            ∧ calls (move_events v) = EvMove <$> moved o
  | Raise _ => moved o = []
  end.
Proof. destruct o as [j ?| | | |]; cbn; try done. by destruct (bool_decide _). Qed.

Lemma phase_events_shape (env : Env) (self : PickAndPlace) (p : PoseV)
    (h : list Event) :
  let o := outcome (consts env) (iksvc env h p) in
  ∃ after, phase_events env self p h = EvIKService p :: after
           ∧ solves after = [] ∧ moves after = moved o
           ∧ calls after = EvMove <$> moved o
           ∧ (failed o = true → ∃ m, after = [EvLogErr m; EvLogErr no_joint_angles]).
Proof.
  intros o. unfold phase_events. fold o. eexists. split; [done|].
  destruct (ik_log_quiet env self o) as (Hs & Hm & Hc).
  pose proof (move_events_moves o) as Hv.
  rewrite solves_app, moves_app, calls_app, Hs, Hm, Hc.
  destruct (ik_value o) as [v|e] eqn:E.
  - destruct Hv as (-> & -> & ->). repeat split; try done.
    intros Hf. destruct o; try done; injection E as <-; cbn; eauto.
  - rewrite Hv. repeat split; try done. intros Hf. by destruct o.
Qed.

Lemma phase_events_solves env self p h : solves (phase_events env self p h) = [p].
Proof.
  destruct (phase_events_shape env self p h) as (after & -> & Hs & _).
  change (solves ([EvIKService p] ++ after) = [p]). by rewrite solves_app, Hs.
Qed.

Lemma phase_events_calls env self p h :
  calls (phase_events env self p h)
  = EvIKService p :: (EvMove <$> moved (outcome (consts env) (iksvc env h p))).
Proof.
  destruct (phase_events_shape env self p h) as (after & -> & _ & _ & Hc & _).
  change (calls ([EvIKService p] ++ after) = [EvIKService p] ++ (EvMove <$> moved (outcome (consts env) (iksvc env h p)))).
  by rewrite calls_app, Hc.
Qed.

Lemma phase_events_outcomes env self p h :
  solve_outcomes env h (phase_events env self p h)
  = [outcome (consts env) (iksvc env h p)].
Proof.
  destruct (phase_events_shape env self p h) as (after & -> & Hs & _).
  cbn [solve_outcomes]. by rewrite solve_outcomes_quiet.
Qed.

Lemma phase_events_logged env self p h :
  failures_logged env h (phase_events env self p h).
Proof.
  destruct (phase_events_shape env self p h) as (after & -> & Hs & _ & _ & Hf).
  cbn [failures_logged]. split.
  - intros Ho. destruct (Hf Ho) as [m ->]. by exists m.
  - by apply failures_logged_quiet.
Qed.

Lemma phase_events_quiet_end env self p h :
  malformed (outcome (consts env) (iksvc env h p)) = false →
  quiet_end (phase_events env self p h).
Proof.
  intros Hwf. unfold phase_events, quiet_end.
  destruct (outcome _ _) as [j ?| |e| |]; try done; cbn;
    destruct (_verbose self), (bool_decide _); done.
Qed.

(** * The claims *)

(** C6. [hover], the pose computation of [_approach] and [goTo], returns a
    fresh pose object whose z is the input's z plus the hover distance (for
    every distance, so for every d ≥ 0) and whose x, y and orientation are
    the input's. No object that existed before the call is changed, the
    input pose among them, and nothing is sent to the outside. With a hover
    distance of zero the result equals the input pose: it denotes the same
    numbers, and it is identical to it unless the input z is the float -0.0,
    which IEEE addition turns into +0.0. *)
Theorem hover_raises_a_copy (self : PickAndPlace) (s : State) (pose : loc)
    (pv : PoseV) :
  heap_pose (heap s) pose = Some pv →
  ∃ (approach : loc) (s' : State) (pv' : PoseV),
    hover self pose s = (Ok approach, s')
    ∧ heap s !! approach = None
    ∧ heap_pose (heap s') approach = Some pv'
    ∧ pz (position pv') = PrimFloat.add (pz (position pv)) (_hover_distance self)
    ∧ px (position pv') = px (position pv)
    ∧ py (position pv') = py (position pv)
    ∧ orientation pv' = orientation pv
    ∧ (∀ l o, heap s !! l = Some o → heap s' !! l = Some o)
    ∧ heap_pose (heap s') pose = Some pv
    ∧ trace s' = trace s
    ∧ (PrimFloat.eqb (_hover_distance self) 0 = true → same_pose pv' pv = true)
    ∧ (_hover_distance self = 0%float →
       PrimFloat.classify (pz (position pv)) ≠ NZero → pv' = pv).
Proof.
  destruct s as [h t]. cbn [heap trace]. intros H.
  exists (length h + 2)%nat, (mkState (h ++ pose_cells (length h)
                                 (raised (_hover_distance self) pv)) t),
    (raised (_hover_distance self) pv).
  cbn [heap trace raised position orientation px py pz].
  split; [by apply hover_run|].
  split; [apply lookup_ge_None; lia|].
  split; [apply heap_pose_cells|].
  do 4 (split; [done|]).
  split; [intros l o Hl; by apply lookup_app_l_Some|].
  split; [by apply heap_pose_app|].
  split; [done|].
  split.
  - intros Hd. unfold same_pose, raised. cbn [position orientation px py pz].
    by rewrite !same_number_refl, add_zero_same.
  - intros -> Hz. unfold raised. rewrite add_zero_exact by done.
    by destruct pv as [[] ?].
Qed.

Lemma hover_raises_a_copy_witness :
  heap_pose (heap Sample.start) 2%nat = Some Sample.block1
  ∧ ∃ (approach : loc) (s' : State) (pv' : PoseV),
      hover Sample.pnp 2%nat Sample.start = (Ok approach, s')
      ∧ heap Sample.start !! approach = None
      ∧ heap_pose (heap s') approach = Some pv'
      ∧ pz (position pv')
        = PrimFloat.add (pz (position Sample.block1)) (_hover_distance Sample.pnp)
      ∧ px (position pv') = px (position Sample.block1)
      ∧ py (position pv') = py (position Sample.block1)
      ∧ orientation pv' = orientation Sample.block1
      ∧ (∀ l o, heap Sample.start !! l = Some o → heap s' !! l = Some o)
      ∧ heap_pose (heap s') 2%nat = Some Sample.block1
      ∧ trace s' = trace Sample.start
      ∧ (PrimFloat.eqb (_hover_distance Sample.pnp) 0 = true →
         same_pose pv' Sample.block1 = true)
      ∧ (_hover_distance Sample.pnp = 0%float →
         PrimFloat.classify (pz (position Sample.block1)) ≠ NZero →
         pv' = Sample.block1).
Proof.
  split; [reflexivity|].
  apply (hover_raises_a_copy Sample.pnp Sample.start 2%nat Sample.block1).
  reflexivity.
Defined.

(** C8. [_guarded_move_to_joint_position] with a falsy argument, the empty
    dict in particular, sends nothing to the limb: it logs one message
    through [rospy.logerr], leaves the heap as it is and returns normally,
    so that the caller goes on with its next step. *)
Theorem guarded_move_refuses_empty (joint_angles : pyval) (s : State) :
  truthy joint_angles = false →
  truthy (PyDict ∅) = false
  ∧ _guarded_move_to_joint_position joint_angles s
    = (Ok tt,
       {| heap := heap s;
          trace := trace s ++
            [EvLogErr "No Joint Angles provided for move_to_joint_positions. Staying put."] |})
  ∧ moves (trace (snd (_guarded_move_to_joint_position joint_angles s)))
    = moves (trace s).
Proof.
  intros Hv. split; [done|].
  unfold _guarded_move_to_joint_position. rewrite Hv.
  split; [done|]. unfold logerr, emit. cbn [snd trace].
  by rewrite moves_app, app_nil_r.
Qed.

Lemma guarded_move_refuses_empty_witness :
  truthy (PyDict ∅) = false
  ∧ truthy (PyDict ∅) = false
  ∧ _guarded_move_to_joint_position (PyDict ∅) Sample.start
    = (Ok tt,
       {| heap := heap Sample.start;
          trace := trace Sample.start ++
            [EvLogErr "No Joint Angles provided for move_to_joint_positions. Staying put."] |})
  ∧ moves (trace (snd (_guarded_move_to_joint_position (PyDict ∅) Sample.start)))
    = moves (trace Sample.start).
Proof.
  split; [reflexivity|].
  apply (guarded_move_refuses_empty (PyDict ∅) Sample.start). reflexivity.
Defined.

(** C10. On an object built by [__init__], [move_to_start] with
    [start_angles] absent ([None]) or empty raises [AttributeError] for
    [_joint_names], which no code binds. It has printed its first line by
    then and has sent nothing to the limb or the gripper: the arm is not
    moved to the all-zero configuration. *)
Theorem move_to_start_without_angles_raises (limb : string)
    (hover_distance : float) (verbose : bool) (start_angles : pyval)
    (s : State) :
  truthy start_angles = false →
  move_to_start (__init__ limb hover_distance verbose) start_angles s
  = (Raise (AttributeError "_joint_names"),
     {| heap := heap s;
        trace := trace s ++
          [EvPrint ("Moving the " +:+ limb +:+ " arm to start pose...")] |}).
Proof.
  intros Hv. unfold move_to_start.
  erewrite bind_run by reflexivity. unfold bind at 1. by rewrite Hv.
Qed.

Lemma move_to_start_without_angles_raises_witness :
  truthy PyNone = false
  ∧ move_to_start (__init__ "left" (_hover_distance Sample.pnp) true) PyNone
      Sample.start
    = (Raise (AttributeError "_joint_names"),
       {| heap := heap Sample.start;
          trace := trace Sample.start ++
            [EvPrint ("Moving the " +:+ "left" +:+ " arm to start pose...")] |}).
Proof.
  split; [reflexivity|].
  apply (move_to_start_without_angles_raises "left" _ true PyNone Sample.start).
  reflexivity.
Defined.

(** C3, as the code has it. A failure of the service call and an
    [Unreachable] answer make [ik_request] return one and the same value,
    [False]. The two kinds differ in the message logged only:
    "Service call failed: ..." for the first, "INVALID POSE - No Valid Joint
    Solution Found." for the second. *)
Theorem failed_solve_returns_False (env : Env) (self : PickAndPlace)
    (s : State) (pose : loc) (pv : PoseV) :
  heap_pose (heap s) pose = Some pv →
  failed (outcome (consts env) (iksvc env (trace s) pv)) = true →
  ∃ msg,
    ik_request env self pose s
    = (Ok PyFalse,
       {| heap := heap s; trace := trace s ++ [EvIKService pv; EvLogErr msg] |})
    ∧ match outcome (consts env) (iksvc env (trace s) pv) with
      | ServiceError e =>
          msg = "Service call failed: " +:+ e
          ∧ msg ≠ "INVALID POSE - No Valid Joint Solution Found."
      | _ => msg = "INVALID POSE - No Valid Joint Solution Found."
      end.
Proof.
  destruct s as [h t]. cbn [heap trace]. intros H Hf.
  rewrite (ik_request_run env self h t pose pv H).
  destruct (outcome _ _) as [| |e| |]; try done; cbn [ik_value ik_log].
  - by exists invalid_pose.
  - exists ("Service call failed: " +:+ e). by repeat split.
Qed.

Lemma failed_solve_returns_False_witness :
  heap_pose (heap Sample.start) 2%nat = Some Sample.block1
  ∧ failed (outcome (consts Sample.unavailable)
              (iksvc Sample.unavailable (trace Sample.start) Sample.block1)) = true
  ∧ ∃ msg,
      ik_request Sample.unavailable Sample.pnp 2%nat Sample.start
      = (Ok PyFalse,
         {| heap := heap Sample.start;
            trace := trace Sample.start ++ [EvIKService Sample.block1; EvLogErr msg] |})
      ∧ match outcome (consts Sample.unavailable)
                (iksvc Sample.unavailable (trace Sample.start) Sample.block1) with
        | ServiceError e =>
            msg = "Service call failed: " +:+ e
            ∧ msg ≠ "INVALID POSE - No Valid Joint Solution Found."
        | _ => msg = "INVALID POSE - No Valid Joint Solution Found."
        end.
Proof.
  split; [reflexivity|]. split; [reflexivity|].
  apply (failed_solve_returns_False Sample.unavailable Sample.pnp Sample.start
           2%nat Sample.block1); reflexivity.
Defined.

(** C3, as the claim states it, fails: when the service call raises and when
    the solver reports no solution, [ik_request] returns the same value. *)
Lemma service_error_and_unreachable_conflated :
  outcome Sample.sdk (iksvc Sample.unavailable [] Sample.block1)
  = ServiceError "unavailable"
  ∧ outcome Sample.sdk (iksvc Sample.never_solved [] Sample.block1) = Unreachable
  ∧ fst (ik_request Sample.unavailable Sample.pnp 2%nat Sample.start) = Ok PyFalse
  ∧ fst (ik_request Sample.never_solved Sample.pnp 2%nat Sample.start) = Ok PyFalse.
Proof. repeat split; reflexivity. Qed.

(** ** The home poses *)

Section TaskQueueFacts.
Context {A : Type}.
Implicit Types (l : list A) (t : Task A).

Lemma nextHome_at l (i : nat) (x : A) :
  l !! i = Some x →
  nextHome (mkTask l (Z.of_nat i))
  = Ok (x, mkTask l ((Z.of_nat i + 1) `mod` Z.of_nat (length l))).
Proof.
  intros Hx. pose proof (lookup_lt_Some _ _ _ Hx) as Hi.
  unfold nextHome, home_at, advance, py_getitem, py_mod. cbn [homes index].
  replace (Z.of_nat i <? 0) with false by (symmetry; apply Z.ltb_ge; lia).
  replace (0 <=? Z.of_nat i) with true by (symmetry; apply Z.leb_le; lia).
  replace (Z.of_nat i <? Z.of_nat (length l)) with true
    by (symmetry; apply Z.ltb_lt; lia).
  cbn [andb]. rewrite Nat2Z.id, Hx.
  by replace (Z.of_nat (length l) =? 0) with false
    by (symmetry; apply Z.eqb_neq; lia).
Qed.

Lemma nextHomes_app (a b : nat) t :
  nextHomes (a + b) t
  = match nextHomes a t with
    | Ok (ps, t') =>
        match nextHomes b t' with
        | Ok (qs, t'') => Ok (ps ++ qs, t'')
        | Raise e => Raise e
        end
    | Raise e => Raise e
    end.
Proof.
  revert t. induction a as [|a IH]; intros t; cbn [Nat.add nextHomes].
  - by destruct (nextHomes b t) as [[??]|].
  - destruct (nextHome t) as [[x t']|]; [|done]. rewrite IH.
    destruct (nextHomes a t') as [[ps t'']|]; [|done].
    by destruct (nextHomes b t'') as [[??]|].
Qed.

(** Steps that stay below the end of the list. *)
Lemma nextHomes_straight l (k i : nat) :
  (i + k < length l)%nat →
  nextHomes k (mkTask l (Z.of_nat i))
  = Ok (take k (drop i l), mkTask l (Z.of_nat (i + k))).
Proof.
  revert i. induction k as [|k IH]; intros i Hik; cbn [nextHomes].
  - by rewrite take_0, Nat.add_0_r.
  - destruct (lookup_lt_is_Some_2 l i) as [x Hx]; [lia|].
    rewrite (nextHome_at l i x Hx).
    replace ((Z.of_nat i + 1) `mod` Z.of_nat (length l)) with (Z.of_nat (S i))
      by (rewrite Z.mod_small; lia).
    rewrite IH by lia. rewrite (drop_S l x i Hx). cbn [take].
    by replace (S i + k)%nat with (i + S k)%nat by lia.
Qed.

(** The step from the last index, which wraps around. *)
Lemma nextHome_wrap l (x : A) :
  l !! (length l - 1)%nat = Some x →
  nextHome (mkTask l (Z.of_nat (length l - 1))) = Ok (x, mkTask l 0).
Proof.
  intros Hx. pose proof (lookup_lt_Some _ _ _ Hx) as Hn.
  rewrite (nextHome_at l _ x Hx).
  replace (Z.of_nat (length l - 1) + 1) with (Z.of_nat (length l)) by lia.
  by rewrite Z_mod_same_full.
Qed.

(** [length l] calls come back to the index they started from, and return
    the list rotated to that index. *)
Lemma nextHomes_round l (i : nat) :
  (i < length l)%nat →
  nextHomes (length l) (mkTask l (Z.of_nat i))
  = Ok (drop i l ++ take i l, mkTask l (Z.of_nat i)).
Proof.
  intros Hi.
  replace (length l) with ((length l - 1 - i) + (1 + i))%nat at 1 by lia.
  rewrite nextHomes_app, nextHomes_straight by lia.
  rewrite nextHomes_app.
  destruct (lookup_lt_is_Some_2 l (length l - 1)) as [x Hx]; [lia|].
  replace (i + (length l - 1 - i))%nat with (length l - 1)%nat by lia.
  cbn [nextHomes]. rewrite (nextHome_wrap l x Hx).
  change 0 with (Z.of_nat 0). rewrite nextHomes_straight by lia.
  rewrite drop_0, Nat.add_0_l. do 2 f_equal.
  rewrite app_assoc. f_equal.
  rewrite <- (take_drop (length l - 1 - i) (drop i l)) at 2.
  f_equal. rewrite drop_drop.
  replace (i + (length l - 1 - i))%nat with (length l - 1)%nat by lia.
  rewrite (drop_S l x _ Hx).
  replace (S (length l - 1)) with (length l) by lia.
  by rewrite drop_all.
Qed.
End TaskQueueFacts.

(** C9. For a task with n ≥ 1 home poses and an index in [0, n):
    [nextHome] returns the pose at the index and moves the index to
    (index + 1) mod n, which is in [0, n) again; n calls in a row return the
    list of home poses rotated to the index, hence every pose exactly once,
    and leave the task as it was; so the (n+1)-th call returns the pose
    that the first call returned. *)
Theorem nextHome_cycles {A : Type} (t : Task A) :
  (1 ≤ length (homes t))%nat →
  0 ≤ index t < Z.of_nat (length (homes t)) →
  let n := length (homes t) in
  let i := Z.to_nat (index t) in
  (∃ pose,
     homes t !! i = Some pose
     ∧ nextHome t
       = Ok (pose, mkTask (homes t) ((index t + 1) `mod` Z.of_nat n))
     ∧ 0 ≤ (index t + 1) `mod` Z.of_nat n < Z.of_nat n)
  ∧ (∃ poses,
       nextHomes n t = Ok (poses, t)
       ∧ poses = drop i (homes t) ++ take i (homes t)
       ∧ poses ≡ₚ homes t)
  ∧ (∃ poses t',
       nextHomes (S n) t = Ok (poses, t')
       ∧ is_Some (poses !! 0%nat)
       ∧ poses !! n = poses !! 0%nat).
Proof.
  destruct t as [l idx]. intros Hn Hidx n i. cbn [homes index] in *.
  assert (Hi : (i < length l)%nat) by (subst i; lia).
  assert (Eidx : idx = Z.of_nat i) by (subst i; lia).
  destruct (lookup_lt_is_Some_2 l i Hi) as [x Hx].
  assert (Hround : nextHomes n (mkTask l idx)
                   = Ok (drop i l ++ take i l, mkTask l idx)).
  { rewrite Eidx. by apply nextHomes_round. }
  split; [|split].
  - exists x. split; [done|]. split.
    + rewrite Eidx. by apply nextHome_at.
    + apply Z.mod_pos_bound. lia.
  - exists (drop i l ++ take i l). split; [done|]. split; [done|].
    rewrite Permutation_app_comm. by rewrite take_drop.
  - replace (S n) with (n + 1)%nat by lia.
    rewrite nextHomes_app, Hround. cbn [nextHomes].
    rewrite Eidx, (nextHome_at l i x Hx).
    eexists _, _. split; [done|].
    assert (Hlen : length (drop i l ++ take i l) = n).
    { rewrite length_app, length_drop, length_take. lia. }
    assert (H0 : (drop i l ++ take i l) !! 0%nat = Some x).
    { rewrite lookup_app_l by (rewrite length_drop; lia).
      by rewrite lookup_drop, Nat.add_0_r. }
    split.
    + rewrite lookup_app_l by lia. by rewrite H0.
    + rewrite (lookup_app_l _ _ 0) by lia. rewrite H0.
      rewrite lookup_app_r by lia. by rewrite Hlen, Nat.sub_diag.
Qed.

Lemma nextHome_cycles_witness :
  let t := mkTask [Sample.block1; Sample.block1_next] 0 in
  (1 ≤ length (homes t))%nat
  ∧ 0 ≤ index t < Z.of_nat (length (homes t))
  ∧ (∃ pose,
       homes t !! Z.to_nat (index t) = Some pose
       ∧ nextHome t
         = Ok (pose, mkTask (homes t)
                       ((index t + 1) `mod` Z.of_nat (length (homes t))))
       ∧ 0 ≤ (index t + 1) `mod` Z.of_nat (length (homes t))
         < Z.of_nat (length (homes t)))
  ∧ (∃ poses,
       nextHomes (length (homes t)) t = Ok (poses, t)
       ∧ poses = drop (Z.to_nat (index t)) (homes t)
                 ++ take (Z.to_nat (index t)) (homes t)
       ∧ poses ≡ₚ homes t)
  ∧ (∃ poses t',
       nextHomes (S (length (homes t))) t = Ok (poses, t')
       ∧ is_Some (poses !! 0%nat)
       ∧ poses !! length (homes t) = poses !! 0%nat).
Proof.
  intros t. split; [cbn; lia|]. split; [cbn; lia|].
  apply (nextHome_cycles t); cbn; lia.
Defined.

(** ** The sequences *)

Lemma calls_cons_call (e : Event) (l : list Event) :
  is_call e = true → calls (e :: l) = e :: calls l.
Proof. unfold calls. cbn [List.filter]. by intros ->. Qed.

Lemma calls_cons_quiet (e : Event) (l : list Event) :
  is_call e = false → calls (e :: l) = calls l.
Proof. unfold calls. cbn [List.filter]. by intros ->. Qed.

Lemma solved_moved (o : IKOutcome) :
  solved o = true → ∃ j seed, o = Solved j seed ∧ j ≠ ∅ ∧ moved o = [j].
Proof.
  destruct o as [j seed| | | |]; try done. cbn. intros Hj.
  exists j, seed. rewrite Hj. by apply bool_decide_eq_true in Hj.
Qed.

Lemma failed_moved (o : IKOutcome) : failed o = true → moved o = [].
Proof. by destruct o. Qed.

Lemma moved_length (o : IKOutcome) : (length (moved o) ≤ 1)%nat.
Proof. destruct o; cbn; try lia. destruct (bool_decide _); cbn; lia. Qed.

Lemma solved_well_formed (env : Env) :
  (∀ h p, solved (outcome (consts env) (iksvc env h p)) = true) → well_formed env.
Proof. intros H h p. specialize (H h p). by destruct (outcome _ _). Qed.

(** C4. Each of the phases Approach, Descend and Retract sends exactly one
    request to the IK service. Nothing is sent to the limb before it. After
    it, the limb receives at most one motion command, and that command
    carries the joint configuration this solve returned: none when the solve
    failed (Unreachable or ServiceError), exactly one when the solve
    returned a configuration that is not empty. The guarded move that
    follows the solve ends the phase with its one answer: the motion command,
    or the logged refusal to move. *)
Theorem phase_solves_once_then_moves (env : Env) (self : PickAndPlace)
    (ph : Phase) (s : State) (pose : loc) (pv : PoseV) :
  heap_pose (heap s) pose = Some pv →
  ∃ (target : PoseV) (before after : list Event),
    let o := outcome (consts env) (iksvc env (trace s ++ before) target) in
    trace (snd (run_phase env self ph pose s))
    = trace s ++ before ++ EvIKService target :: after
    ∧ target = match ph with
               | Approach => raised (_hover_distance self) pv
               | Descend => pv
               | Retract =>
                   raised (_hover_distance self) (endpoint_pose env (trace s))
               end
    ∧ solves before = [] ∧ moves before = []
    ∧ solves after = []
    ∧ moves after = moved o
    ∧ (length (moves after) ≤ 1)%nat
    ∧ (failed o = true → moves after = [])
    ∧ (solved o = true → ∃ j seed, o = Solved j seed ∧ moves after = [j])
    ∧ (malformed o = false →
       last after
       = Some match moved o with
              | j :: _ => EvMove j
              | [] => EvLogErr "No Joint Angles provided for move_to_joint_positions. Staying put."
              end).
Proof.
  destruct s as [h t]. cbn [heap trace]. intros H.
  assert (Hgen : ∀ p before,
    solves before = [] → moves before = [] →
    ∃ after, let o := outcome (consts env) (iksvc env (t ++ before) p) in
      before ++ phase_events env self p (t ++ before)
      = before ++ EvIKService p :: after
      ∧ solves before = [] ∧ moves before = []
      ∧ solves after = []
      ∧ moves after = moved o
      ∧ (length (moves after) ≤ 1)%nat
      ∧ (failed o = true → moves after = [])
      ∧ (solved o = true → ∃ j seed, o = Solved j seed ∧ moves after = [j])
      ∧ (malformed o = false →
         last after
         = Some match moved o with
                | j :: _ => EvMove j
                | [] => EvLogErr no_joint_angles
                end)).
  { intros p before Hs Hm.
    destruct (phase_events_shape env self p (t ++ before))
      as (after & Hph & Hsa & Hma & _).
    exists after. cbv zeta. rewrite Hma, Hph. repeat split; try done.
    - apply moved_length.
    - apply failed_moved.
    - intros (j & seed & -> & _ & ->)%solved_moved. eauto.
    - intros Hwf. unfold phase_events in Hph. injection Hph as <-.
      rewrite last_app.
      destruct (outcome _ _) as [j ?| |e| |]; try done; cbn.
      by destruct (bool_decide _). }
  destruct ph; cbn [run_phase].
  - rewrite (approach_run env self h t pose pv H). cbn [snd trace].
    destruct (Hgen (raised (_hover_distance self) pv) []) as (after & Hafter);
      [done..|].
    rewrite app_nil_r in Hafter. cbn [app] in Hafter.
    exists (raised (_hover_distance self) pv), [], after.
    rewrite app_nil_r. cbn [app]. destruct Hafter as (-> & ?). by split.
  - rewrite (servo_run env self h t pose pv H). cbn [snd trace].
    destruct (Hgen pv []) as (after & Hafter); [done..|].
    rewrite app_nil_r in Hafter. cbn [app] in Hafter.
    exists pv, [], after.
    rewrite app_nil_r. cbn [app]. destruct Hafter as (-> & ?). by split.
  - rewrite retract_run. cbn [snd trace].
    destruct (Hgen (raised (_hover_distance self) (endpoint_pose env t))
                [EvEndpointPose]) as (after & Hafter); [done..|].
    exists (raised (_hover_distance self) (endpoint_pose env t)),
      [EvEndpointPose], after.
    unfold retract_events.
    change (EvEndpointPose :: phase_events env self ?p ?h)
      with ([EvEndpointPose] ++ phase_events env self p h).
    destruct Hafter as (-> & ?). by split.
Qed.

Lemma phase_solves_once_then_moves_witness :
  heap_pose (heap Sample.start) 2%nat = Some Sample.block1
  ∧ ∃ (target : PoseV) (before after : list Event),
      let o := outcome (consts Sample.first_unreachable)
                 (iksvc Sample.first_unreachable
                    (trace Sample.start ++ before) target) in
      trace (snd (run_phase Sample.first_unreachable Sample.pnp Approach 2%nat
                    Sample.start))
      = trace Sample.start ++ before ++ EvIKService target :: after
      ∧ target = raised (_hover_distance Sample.pnp) Sample.block1
      ∧ solves before = [] ∧ moves before = []
      ∧ solves after = []
      ∧ moves after = moved o
      ∧ (length (moves after) ≤ 1)%nat
      ∧ (failed o = true → moves after = [])
      ∧ (solved o = true → ∃ j seed, o = Solved j seed ∧ moves after = [j])
      ∧ (malformed o = false →
         last after
         = Some match moved o with
                | j :: _ => EvMove j
                | [] => EvLogErr "No Joint Angles provided for move_to_joint_positions. Staying put."
                end).
Proof.
  split; [reflexivity|].
  apply (phase_solves_once_then_moves Sample.first_unreachable Sample.pnp
           Approach Sample.start 2%nat Sample.block1).
  reflexivity.
Defined.

Lemma pick_events_unfold (env : Env) (self : PickAndPlace) (pv : PoseV)
    (pvs : list PoseV) (t : list Event) :
  let d := _hover_distance self in
  let h1 := t ++ [EvGripperOpen; EvSleep 1] in
  let ph1 := phase_events env self (raised d pv) h1 in
  let h2 := h1 ++ ph1 in
  let ph2 := phase_events env self pv h2 in
  let h3 := (h2 ++ ph2) ++ [EvGripperClose; EvSleep 1] in
  let cur := endpoint_pose env h3 in
  let h4 := h3 ++ [EvEndpointPose] in
  let ph3 := phase_events env self (raised d cur) h4 in
  let h5 := h4 ++ ph3 in
  pick_events env self pv pvs t
  = [EvGripperOpen; EvSleep 1] ++ ph1 ++ ph2 ++ [EvGripperClose; EvSleep 1]
    ++ [EvEndpointPose] ++ ph3 ++ transit_events env self pvs h5
  ∧ t ++ pick_events env self pv pvs t = h5 ++ transit_events env self pvs h5.
Proof.
  intros d h1 ph1 h2 ph2 h3 cur h4 ph3 h5.
  assert (E : pick_events env self pv pvs t
    = [EvGripperOpen; EvSleep 1] ++ ph1 ++ ph2 ++ [EvGripperClose; EvSleep 1]
      ++ [EvEndpointPose] ++ ph3 ++ transit_events env self pvs h5).
  { unfold pick_events, seg_seq, seg, retract_events.
    subst h5 ph3 h4 cur h3 ph2 h2 ph1 h1 d.
    rewrite <- !app_assoc. cbn [app]. repeat f_equal;
      rewrite <- ?app_assoc; cbn [app]; try done;
      repeat f_equal; rewrite <- ?app_assoc; cbn [app]; done. }
  split; [done|]. rewrite E. subst h5 h4 h3 h2 h1.
  rewrite <- !app_assoc. done.
Qed.

(** C7. When every solve finds a joint configuration (with at least one
    joint, as a configuration of the limb has) and the waypoint path is
    empty, [pick] returns normally and its calls to the gripper, the IK
    service and the limb are, in order: open gripper, solve of the hover pose
    above the target, move, solve of the target pose, move, close gripper,
    read of the current pose, solve of the hover pose above the pose read,
    move. *)
Theorem pick_calls_when_all_solved (env : Env) (self : PickAndPlace)
    (s : State) (pose : loc) (pv : PoseV) :
  heap_pose (heap s) pose = Some pv →
  (∀ h p, solved (outcome (consts env) (iksvc env h p)) = true) →
  ∃ (s' : State) (new before after : list Event) (cur : PoseV)
    (j1 j2 j3 : JointAngles),
    pick env self pose [] s = (Ok tt, s')
    ∧ trace s' = trace s ++ new
    ∧ calls new
      = [EvGripperOpen;
         EvIKService (raised (_hover_distance self) pv); EvMove j1;
         EvIKService pv; EvMove j2;
         EvGripperClose;
         EvEndpointPose;
         EvIKService (raised (_hover_distance self) cur); EvMove j3]
    ∧ new = before ++ EvEndpointPose :: after
    ∧ cur = endpoint_pose env (trace s ++ before).
Proof.
  destruct s as [h t]. cbn [heap trace]. intros H Hsolved.
  destruct (pick_run env self h t pose pv [] [] (solved_well_formed env Hsolved) H)
    as [h' ->]; [constructor|].
  destruct (pick_events_unfold env self pv [] t) as [E _]. cbv zeta in E.
  set (d := _hover_distance self) in *.
  set (h1 := t ++ [EvGripperOpen; EvSleep 1]) in *.
  set (ph1 := phase_events env self (raised d pv) h1) in *.
  set (h2 := h1 ++ ph1) in *.
  set (ph2 := phase_events env self pv h2) in *.
  set (h3 := (h2 ++ ph2) ++ [EvGripperClose; EvSleep 1]) in *.
  set (cur := endpoint_pose env h3) in *.
  set (h4 := h3 ++ [EvEndpointPose]) in *.
  set (ph3 := phase_events env self (raised d cur) h4) in *.
  cbn [transit_events] in E. unfold seg in E. rewrite app_nil_r in E.
  destruct (solved_moved _ (Hsolved h1 (raised d pv))) as (j1 & ? & _ & _ & Hj1).
  destruct (solved_moved _ (Hsolved h2 pv)) as (j2 & ? & _ & _ & Hj2).
  destruct (solved_moved _ (Hsolved h4 (raised d cur))) as (j3 & ? & _ & _ & Hj3).
  exists (mkState (h ++ h') (t ++ pick_events env self pv [] t)),
    (pick_events env self pv [] t),
    ([EvGripperOpen; EvSleep 1] ++ ph1 ++ ph2 ++ [EvGripperClose; EvSleep 1]),
    ph3, cur, j1, j2, j3.
  split; [done|]. split; [done|]. split; [|split].
  - rewrite E, !calls_app. subst ph1 ph2 ph3.
    rewrite !phase_events_calls, Hj1, Hj2, Hj3. done.
  - rewrite E. by rewrite <- !app_assoc.
  - subst cur h3 h2 h1. f_equal. by rewrite <- !app_assoc.
Qed.

Lemma pick_calls_when_all_solved_witness :
  heap_pose (heap Sample.start) 2%nat = Some Sample.block1
  ∧ (∀ h p, solved (outcome (consts Sample.always_solved)
                      (iksvc Sample.always_solved h p)) = true)
  ∧ ∃ (s' : State) (new before after : list Event) (cur : PoseV)
      (j1 j2 j3 : JointAngles),
      pick Sample.always_solved Sample.pnp 2%nat [] Sample.start = (Ok tt, s')
      ∧ trace s' = trace Sample.start ++ new
      ∧ calls new
        = [EvGripperOpen;
           EvIKService (raised (_hover_distance Sample.pnp) Sample.block1);
           EvMove j1;
           EvIKService Sample.block1; EvMove j2;
           EvGripperClose;
           EvEndpointPose;
           EvIKService (raised (_hover_distance Sample.pnp) cur); EvMove j3]
      ∧ new = before ++ EvEndpointPose :: after
      ∧ cur = endpoint_pose Sample.always_solved (trace Sample.start ++ before).
Proof.
  split; [reflexivity|]. split; [intros h p; vm_compute; reflexivity|].
  apply (pick_calls_when_all_solved Sample.always_solved Sample.pnp
           Sample.start 2%nat Sample.block1).
  - reflexivity.
  - intros h p. vm_compute. reflexivity.
Defined.

Lemma transit_events_facts (env : Env) (self : PickAndPlace) (pvs : list PoseV) :
  well_formed env →
  ∀ h, let tr := transit_events env self pvs h in
       solves tr = raised (_hover_distance self) <$> pvs
       ∧ moves tr = mjoin (moved <$> solve_outcomes env h tr)
       ∧ failures_logged env h tr
       ∧ quiet_end tr.
Proof.
  intros Hwf. induction pvs as [|p pvs IH]; intros h; [done|].
  cbn [transit_events]. unfold seg_seq, seg. cbv zeta.
  set (d := _hover_distance self).
  set (h1 := h ++ [EvPrint "Came here"]).
  set (ph := phase_events env self (raised d p) h1).
  destruct (IH (h ++ [EvPrint "Came here"] ++ ph)) as (Hs & Hm & Hl & Hq).
  destruct (phase_events_shape env self (raised d p) h1)
    as (after & Hph & _ & Hma & _).
  assert (Hmph : moves ph = moved (outcome (consts env) (iksvc env h1 (raised d p)))).
  { unfold ph at 1. rewrite Hph.
    change (EvIKService (raised d p) :: after)
      with ([EvIKService (raised d p)] ++ after).
    by rewrite moves_app, Hma. }
  split; [|split; [|split]].
  - rewrite !solves_app, Hs. unfold ph. by rewrite phase_events_solves.
  - rewrite !moves_app, !solve_outcomes_app, Hm, Hmph.
    subst ph h1. rewrite phase_events_outcomes, !fmap_app, !join_app.
    cbn. by rewrite app_nil_r.
  - apply failures_logged_app; [|apply quiet_end_app; [done|]|done].
    + apply (failures_logged_app env [EvPrint "Came here"] ph); [done..|].
      apply phase_events_logged.
    + apply phase_events_quiet_end, Hwf.
  - apply quiet_end_app; [|done].
    apply quiet_end_app; [done|]. apply phase_events_quiet_end, Hwf.
Qed.

(** C5. Whatever the IK service answers for the waypoints, [pick] goes
    through all of them: after the three solves of the grasp (hover pose,
    target pose, hover pose above the pose read from the limb) it sends one
    solve per waypoint, in the order of the path, for the waypoint raised by
    the hover distance; a waypoint whose solve fails gets no motion command
    and the others get theirs; every failed solve is followed at once by a
    logged error; and [pick] returns normally. *)
Theorem waypoint_failures_do_not_abort (env : Env) (self : PickAndPlace)
    (s : State) (pose : loc) (pv : PoseV) (path : list loc)
    (pvs : list PoseV) :
  well_formed env →
  heap_pose (heap s) pose = Some pv →
  Forall2 (λ l p, heap_pose (heap s) l = Some p) path pvs →
  ∃ (s' : State) (grasp transit : list Event) (cur : PoseV),
    pick env self pose path s = (Ok tt, s')
    ∧ trace s' = trace s ++ grasp ++ transit
    ∧ solves grasp
      = [raised (_hover_distance self) pv; pv; raised (_hover_distance self) cur]
    ∧ solves transit = raised (_hover_distance self) <$> pvs
    ∧ moves transit
      = mjoin (moved <$> solve_outcomes env (trace s ++ grasp) transit)
    ∧ failures_logged env (trace s) (grasp ++ transit).
Proof.
  destruct s as [h t]. cbn [heap trace]. intros Hwf H Hpath.
  destruct (pick_run env self h t pose pv path pvs Hwf H Hpath) as [h' ->].
  destruct (pick_events_unfold env self pv pvs t) as [E _]. cbv zeta in E.
  set (d := _hover_distance self) in *.
  set (h1 := t ++ [EvGripperOpen; EvSleep 1]) in *.
  set (ph1 := phase_events env self (raised d pv) h1) in *.
  set (h2 := h1 ++ ph1) in *.
  set (ph2 := phase_events env self pv h2) in *.
  set (h3 := (h2 ++ ph2) ++ [EvGripperClose; EvSleep 1]) in *.
  set (cur := endpoint_pose env h3) in *.
  set (h4 := h3 ++ [EvEndpointPose]) in *.
  set (ph3 := phase_events env self (raised d cur) h4) in *.
  set (h5 := h4 ++ ph3) in *.
  set (grasp := [EvGripperOpen; EvSleep 1] ++ ph1 ++ ph2
                ++ [EvGripperClose; EvSleep 1] ++ [EvEndpointPose] ++ ph3).
  assert (Eh5 : h5 = t ++ grasp).
  { subst h5 h4 h3 h2 h1 grasp. by rewrite <- !app_assoc. }
  destruct (transit_events_facts env self pvs Hwf h5) as (Hs & Hm & Hl & _).
  exists (mkState (h ++ h') (t ++ pick_events env self pv pvs t)),
    grasp, (transit_events env self pvs h5), cur.
  split; [done|]. cbn [trace].
  split; [rewrite E; subst grasp; by rewrite <- !app_assoc|].
  split; [|split; [done|split; [by rewrite <- Eh5|]]].
  - subst grasp. rewrite !solves_app. subst ph1 ph2 ph3.
    by rewrite !phase_events_solves.
  - apply failures_logged_app; [| |by rewrite <- Eh5].
    + subst grasp.
      apply (failures_logged_app env [EvGripperOpen; EvSleep 1]); [done..|].
      apply failures_logged_app;
        [apply phase_events_logged|apply phase_events_quiet_end, Hwf|].
      apply failures_logged_app;
        [apply phase_events_logged|apply phase_events_quiet_end, Hwf|].
      apply (failures_logged_app env [EvGripperClose; EvSleep 1]); [done..|].
      apply (failures_logged_app env [EvEndpointPose]); [done..|].
      subst ph3 h4 h3 h2 h1. rewrite <- !app_assoc. apply phase_events_logged.
    + subst grasp. rewrite !app_assoc.
      apply quiet_end_app_r; [done|]. apply phase_events_quiet_end, Hwf.
Qed.

Lemma waypoint_failures_do_not_abort_witness :
  well_formed Sample.waypoint_unreachable
  ∧ heap_pose (heap Sample.with_path) 2%nat = Some Sample.block1
  ∧ Forall2 (λ l p, heap_pose (heap Sample.with_path) l = Some p)
      [5; 8]%nat
      [Sample.waypoint1;
       Sample.waypoint2]
  ∧ ∃ (s' : State) (grasp transit : list Event) (cur : PoseV),
      pick Sample.waypoint_unreachable Sample.pnp 2%nat [5; 8]%nat
        Sample.with_path = (Ok tt, s')
      ∧ trace s' = trace Sample.with_path ++ grasp ++ transit
      ∧ solves grasp
        = [raised (_hover_distance Sample.pnp) Sample.block1; Sample.block1;
           raised (_hover_distance Sample.pnp) cur]
      ∧ solves transit
        = raised (_hover_distance Sample.pnp) <$>
            [Sample.waypoint1;
             Sample.waypoint2]
      ∧ moves transit
        = mjoin (moved <$> solve_outcomes Sample.waypoint_unreachable
                             (trace Sample.with_path ++ grasp) transit)
      ∧ failures_logged Sample.waypoint_unreachable (trace Sample.with_path)
          (grasp ++ transit).
Proof.
  assert (Hwf : well_formed Sample.waypoint_unreachable).
  { intros h p. cbn. by destruct (solves h) as [|? [|? [|? [|? ?]]]]. }
  split; [exact Hwf|]. split; [reflexivity|].
  split; [repeat constructor|].
  apply (waypoint_failures_do_not_abort Sample.waypoint_unreachable Sample.pnp
           Sample.with_path 2%nat Sample.block1 [5; 8]%nat).
  - exact Hwf.
  - reflexivity.
  - repeat constructor.
Defined.

(** C1, as the code has it. When the solve of the Approach phase of [pick]
    fails (Unreachable or ServiceError), the failure is logged and the
    Approach phase sends no motion command; the pick goes on all the same:
    the next call is the Descend solve of the target pose, the gripper is
    closed later on, and [pick] returns normally, as it does after a pick
    without failure. *)
Theorem pick_continues_after_failed_approach (env : Env) (self : PickAndPlace)
    (s : State) (pose : loc) (pv : PoseV) (path : list loc)
    (pvs : list PoseV) :
  well_formed env →
  heap_pose (heap s) pose = Some pv →
  Forall2 (λ l p, heap_pose (heap s) l = Some p) path pvs →
  failed (outcome (consts env)
            (iksvc env (trace s ++ [EvGripperOpen; EvSleep 1])
               (raised (_hover_distance self) pv))) = true →
  ∃ (s' : State) (msg : string) (rest : list Event),
    pick env self pose path s = (Ok tt, s')
    ∧ trace s'
      = trace s ++
        [EvGripperOpen; EvSleep 1;
         EvIKService (raised (_hover_distance self) pv);
         EvLogErr msg;
         EvLogErr "No Joint Angles provided for move_to_joint_positions. Staying put.";
         EvIKService pv] ++ rest
    ∧ EvGripperClose ∈ rest.
Proof.
  destruct s as [h t]. cbn [heap trace]. intros Hwf H Hpath Hfail.
  destruct (pick_run env self h t pose pv path pvs Hwf H Hpath) as [h' ->].
  destruct (pick_events_unfold env self pv pvs t) as [E _]. cbv zeta in E.
  set (d := _hover_distance self) in *.
  set (h1 := t ++ [EvGripperOpen; EvSleep 1]) in *.
  destruct (phase_events_shape env self (raised d pv) h1)
    as (after1 & E1 & _ & _ & _ & Hlog).
  destruct (Hlog Hfail) as [msg ->]. rewrite E1 in E.
  set (h2 := h1 ++ _) in E.
  destruct (phase_events_shape env self pv h2) as (after2 & E2 & _).
  rewrite E2 in E.
  eexists _, msg, _. split; [done|]. cbn [trace]. rewrite E. split.
  - cbn [app]. reflexivity.
  - apply elem_of_app. right. by left.
Qed.

Lemma pick_continues_after_failed_approach_witness :
  well_formed Sample.first_unreachable
  ∧ heap_pose (heap Sample.start) 2%nat = Some Sample.block1
  ∧ Forall2 (λ l p, heap_pose (heap Sample.start) l = Some p) [] []
  ∧ failed (outcome (consts Sample.first_unreachable)
              (iksvc Sample.first_unreachable
                 (trace Sample.start ++ [EvGripperOpen; EvSleep 1])
                 (raised (_hover_distance Sample.pnp) Sample.block1))) = true
  ∧ ∃ (s' : State) (msg : string) (rest : list Event),
      pick Sample.first_unreachable Sample.pnp 2%nat [] Sample.start = (Ok tt, s')
      ∧ trace s'
        = trace Sample.start ++
          [EvGripperOpen; EvSleep 1;
           EvIKService (raised (_hover_distance Sample.pnp) Sample.block1);
           EvLogErr msg;
           EvLogErr "No Joint Angles provided for move_to_joint_positions. Staying put.";
           EvIKService Sample.block1] ++ rest
      ∧ EvGripperClose ∈ rest.
Proof.
  assert (Hwf : well_formed Sample.first_unreachable).
  { intros h p. cbn. by destruct (solves h). }
  split; [exact Hwf|]. split; [reflexivity|]. split; [constructor|].
  split; [reflexivity|].
  apply (pick_continues_after_failed_approach Sample.first_unreachable
           Sample.pnp Sample.start 2%nat Sample.block1 [] []).
  - exact Hwf.
  - reflexivity.
  - constructor.
  - reflexivity.
Defined.

(** C1, as the claim states it, fails: with a solver that reports no solution
    for the Approach solve and finds one afterwards, [pick] still asks for
    the Descend solve, moves the limb, closes the gripper, retracts, and
    returns normally. *)
Lemma pick_not_aborted_by_failed_approach :
  let run := pick Sample.first_unreachable Sample.pnp 2%nat [] Sample.start in
  head (solve_outcomes Sample.first_unreachable [] (trace (snd run)))
  = Some Unreachable
  ∧ fst run = Ok tt
  ∧ calls (trace (snd run))
    = [EvGripperOpen;
       EvIKService (raised (_hover_distance Sample.pnp) Sample.block1);
       EvIKService Sample.block1; EvMove Sample.solution;
       EvGripperClose;
       EvEndpointPose;
       EvIKService (raised (_hover_distance Sample.pnp) Sample.at_rest);
       EvMove Sample.solution].
Proof. vm_compute. repeat split; reflexivity. Qed.

Lemma place_events_unfold (env : Env) (self : PickAndPlace) (pv : PoseV)
    (t : list Event) :
  let d := _hover_distance self in
  let ph1 := phase_events env self (raised d pv) t in
  let h2 := t ++ ph1 in
  let ph2 := phase_events env self pv h2 in
  let h3 := (h2 ++ ph2) ++ [EvGripperOpen; EvSleep 1] in
  let cur := endpoint_pose env h3 in
  let h4 := h3 ++ [EvEndpointPose] in
  let ph3 := phase_events env self (raised d cur) h4 in
  place_events env self pv t
  = ph1 ++ ph2 ++ [EvGripperOpen; EvSleep 1] ++ [EvEndpointPose] ++ ph3.
Proof.
  intros d ph1 h2 ph2 h3 cur h4 ph3.
  unfold place_events, seg_seq, seg, retract_events.
  subst ph3 h4 cur h3 ph2 h2 ph1 d.
  rewrite <- !app_assoc. cbn [app]. repeat f_equal;
    rewrite <- ?app_assoc; cbn [app]; try done;
    repeat f_equal; rewrite <- ?app_assoc; cbn [app]; done.
Qed.

(** C2, as the code has it. Whatever the solves of the Approach and the
    Descend phase of [place] answer, the place is not aborted: a phase whose
    solve fails (Unreachable or ServiceError) sends no motion command, and
    then the gripper is opened all the same, the retract is attempted, and
    [place] returns normally. *)
Theorem place_continues_after_failed_solve (env : Env) (self : PickAndPlace)
    (s : State) (pose : loc) (pv : PoseV) :
  well_formed env →
  heap_pose (heap s) pose = Some pv →
  ∃ (s' : State) (new : list Event) (o1 o2 o3 : IKOutcome) (cur : PoseV),
    place env self pose s = (Ok tt, s')
    ∧ trace s' = trace s ++ new
    ∧ solve_outcomes env (trace s) new = [o1; o2; o3]
    ∧ calls new
      = EvIKService (raised (_hover_distance self) pv) :: (EvMove <$> moved o1)
        ++ EvIKService pv :: (EvMove <$> moved o2)
        ++ EvGripperOpen :: EvEndpointPose
        :: EvIKService (raised (_hover_distance self) cur) :: (EvMove <$> moved o3)
    ∧ (failed o1 = true → moved o1 = [])
    ∧ (failed o2 = true → moved o2 = []).
Proof.
  destruct s as [h t]. cbn [heap trace]. intros Hwf H.
  destruct (place_run env self h t pose pv Hwf H) as [h' ->].
  pose proof (place_events_unfold env self pv t) as E. cbv zeta in E.
  set (d := _hover_distance self) in *.
  set (ph1 := phase_events env self (raised d pv) t) in *.
  set (h2 := t ++ ph1) in *.
  set (ph2 := phase_events env self pv h2) in *.
  set (h3 := (h2 ++ ph2) ++ [EvGripperOpen; EvSleep 1]) in *.
  set (cur := endpoint_pose env h3) in *.
  set (h4 := h3 ++ [EvEndpointPose]) in *.
  set (ph3 := phase_events env self (raised d cur) h4) in *.
  exists (mkState (h ++ h') (t ++ place_events env self pv t)),
    (place_events env self pv t),
    (outcome (consts env) (iksvc env t (raised d pv))),
    (outcome (consts env) (iksvc env h2 pv)),
    (outcome (consts env) (iksvc env h4 (raised d cur))), cur.
  split; [done|]. split; [done|]. split; [|split].
  - rewrite E, !solve_outcomes_app. fold h2 h3 h4. subst ph1 ph2 ph3.
    by rewrite !phase_events_outcomes.
  - rewrite E, !calls_app. subst ph1 ph2 ph3.
    by rewrite !phase_events_calls.
  - split; apply failed_moved.
Qed.

Lemma place_continues_after_failed_solve_witness :
  well_formed Sample.second_unreachable
  ∧ heap_pose (heap Sample.start) 2%nat = Some Sample.block1
  ∧ ∃ (s' : State) (new : list Event) (o1 o2 o3 : IKOutcome) (cur : PoseV),
      place Sample.second_unreachable Sample.pnp 2%nat Sample.start = (Ok tt, s')
      ∧ trace s' = trace Sample.start ++ new
      ∧ solve_outcomes Sample.second_unreachable (trace Sample.start) new
        = [o1; o2; o3]
      ∧ calls new
        = EvIKService (raised (_hover_distance Sample.pnp) Sample.block1)
          :: (EvMove <$> moved o1)
          ++ EvIKService Sample.block1 :: (EvMove <$> moved o2)
          ++ EvGripperOpen :: EvEndpointPose
          :: EvIKService (raised (_hover_distance Sample.pnp) cur)
          :: (EvMove <$> moved o3)
      ∧ (failed o1 = true → moved o1 = [])
      ∧ (failed o2 = true → moved o2 = []).
Proof.
  assert (Hwf : well_formed Sample.second_unreachable).
  { intros h p. cbn. by destruct (solves h) as [|? [|? ?]]. }
  split; [exact Hwf|]. split; [reflexivity|].
  apply (place_continues_after_failed_solve Sample.second_unreachable
           Sample.pnp Sample.start 2%nat Sample.block1).
  - exact Hwf.
  - reflexivity.
Defined.

(** C2, as the claim states it, fails: with a solver that reports no solution
    for the Descend solve, [place] still opens the gripper, which releases
    the object, retracts, and returns normally. *)
Lemma place_not_aborted_by_failed_descend :
  let run := place Sample.second_unreachable Sample.pnp 2%nat Sample.start in
  solve_outcomes Sample.second_unreachable [] (trace (snd run)) !! 1%nat
  = Some Unreachable
  ∧ fst run = Ok tt
  ∧ calls (trace (snd run))
    = [EvIKService (raised (_hover_distance Sample.pnp) Sample.block1);
       EvMove Sample.solution;
       EvIKService Sample.block1;
       EvGripperOpen;
       EvEndpointPose;
       EvIKService (raised (_hover_distance Sample.pnp) Sample.at_rest);
       EvMove Sample.solution].
Proof. vm_compute. repeat split; reflexivity. Qed.

(** * More of the script *)

(** ** Runs that may stop *)

Lemma bind_steps (m : M unit) (k : unit → M unit) (f : Step)
    (fs : list Step) (h h1 : list obj) (t : list Event) :
  m (mkState h t) = ((f t).1, mkState (h ++ h1) (t ++ (f t).2)) →
  (∃ h2, k tt (mkState (h ++ h1) (t ++ (f t).2))
         = ((run_steps fs (t ++ (f t).2)).1,
            mkState ((h ++ h1) ++ h2)
              ((t ++ (f t).2) ++ (run_steps fs (t ++ (f t).2)).2))) →
  ∃ h', bind m k (mkState h t)
        = ((run_steps (f :: fs) t).1,
           mkState (h ++ h') (t ++ (run_steps (f :: fs) t).2)).
Proof.
  intros Hm [h2 Hk]. unfold bind. rewrite Hm. cbn [run_steps].
  destruct (f t) as [[[]|e] evs]; cbn [fst snd] in *.
  - rewrite Hk. destruct (run_steps fs (t ++ evs)) as [r evs'].
    exists (h1 ++ h2). cbn [fst snd]. by rewrite <- !app_assoc.
  - by exists h1.
Qed.

Lemma bind_assoc {A B C} (a : M A) (b : A → M B) (c : B → M C) (s : State) :
  bind (bind a b) c s = bind a (λ x, bind (b x) c) s.
Proof. unfold bind. by destruct (a s) as [[?|?] ?]. Qed.

Lemma bind_ret_r (m : M unit) (s : State) : bind m (λ _, ret tt) s = m s.
Proof. unfold bind, ret. by destruct (m s) as [[[]|?] ?]. Qed.

Lemma steps_done (h : list obj) (t : list Event) :
  ∃ h', ret tt (mkState h t)
        = ((run_steps [] t).1, mkState (h ++ h') (t ++ (run_steps [] t).2)).
Proof. exists []. cbn. by rewrite !app_nil_r. Qed.

Lemma same_heap_run {A} (m : M A) (h : list obj) (t t' : list Event)
    (r : result A) :
  m (mkState h t) = (r, mkState h t') → m (mkState h t) = (r, mkState (h ++ []) t').
Proof. by rewrite app_nil_r. Qed.

Lemma say_run (m : M unit) (evs : list Event) (h : list obj) (t : list Event) :
  m (mkState h t) = (Ok tt, mkState h (t ++ evs)) →
  m (mkState h t) = ((say evs t).1, mkState (h ++ []) (t ++ (say evs t).2)).
Proof. intros ->. cbn. by rewrite app_nil_r. Qed.

Lemma transit_run_all (env : Env) (self : PickAndPlace) (path : list loc)
    (pvs : list PoseV) :
  ∀ (h : list obj) (t : list Event),
    Forall2 (λ l pv, heap_pose h l = Some pv) path pvs →
    ∃ h', for_each path (λ p_, print "Came here" ;;; goTo env self p_) (mkState h t)
          = ((run_steps (transit_steps env self pvs) t).1,
             mkState (h ++ h') (t ++ (run_steps (transit_steps env self pvs) t).2)).
Proof.
  revert pvs. induction path as [|l path IH]; intros pvs h t Hall.
  - apply Forall2_nil_inv_l in Hall as ->. apply steps_done.
  - apply Forall2_cons_inv_l in Hall as (pv & pvs' & Hl & Hall & ->).
    cbn [for_each transit_steps flat_map app].
    fold (transit_steps env self pvs').
    rewrite bind_assoc.
    eapply bind_steps; [by apply say_run|].
    rewrite app_nil_r.
    eapply bind_steps; [apply (goTo_run env self h _ l pv Hl)|].
    apply IH. eapply Forall2_impl; [exact Hall|].
    intros ???. by apply heap_pose_app.
Qed.

Lemma pick_run_all (env : Env) (self : PickAndPlace) (h : list obj)
    (t : list Event) (pose : loc) (pv : PoseV) (path : list loc)
    (pvs : list PoseV) :
  heap_pose h pose = Some pv →
  Forall2 (λ l pv, heap_pose h l = Some pv) path pvs →
  ∃ h', pick env self pose path (mkState h t)
        = ((run_steps (pick_steps env self pv pvs) t).1,
           mkState (h ++ h') (t ++ (run_steps (pick_steps env self pv pvs) t).2)).
Proof.
  intros Hpose Hpath. unfold pick, pick_steps. cbn [app].
  eapply bind_steps; [apply say_run, gripper_open_run|]. rewrite app_nil_r.
  eapply bind_steps; [apply (approach_run env self _ _ pose pv Hpose)|].
  eapply bind_steps;
    [apply same_heap_run, (servo_run env self _ _ pose pv);
     by apply heap_pose_app|].
  rewrite app_nil_r.
  eapply bind_steps; [apply say_run, gripper_close_run|]. rewrite app_nil_r.
  eapply bind_steps; [apply retract_run|].
  apply transit_run_all. eapply Forall2_impl; [exact Hpath|].
  intros ???. rewrite <- app_assoc. by apply heap_pose_app.
Qed.

Lemma place_run_all (env : Env) (self : PickAndPlace) (h : list obj)
    (t : list Event) (pose : loc) (pv : PoseV) :
  heap_pose h pose = Some pv →
  ∃ h', place env self pose (mkState h t)
        = ((run_steps (place_steps env self pv) t).1,
           mkState (h ++ h') (t ++ (run_steps (place_steps env self pv) t).2)).
Proof.
  intros Hpose. unfold place, place_steps.
  eapply bind_steps; [apply (approach_run env self _ _ pose pv Hpose)|].
  eapply bind_steps;
    [apply same_heap_run, (servo_run env self _ _ pose pv);
     by apply heap_pose_app|].
  rewrite app_nil_r.
  eapply bind_steps; [apply say_run, gripper_open_run|]. rewrite app_nil_r.
  rewrite <- bind_ret_r.
  eapply bind_steps; [apply retract_run|]. apply steps_done.
Qed.

Lemma say_sound (env : Env) (evs : list Event) :
  solves evs = [] → moves evs = [] → sound_step env (say evs).
Proof.
  intros Hs Hm h. cbn [say fst snd].
  by rewrite solve_outcomes_quiet, Hm.
Qed.

Lemma phase_step_sound (env : Env) (self : PickAndPlace) (p : PoseV) :
  sound_step env (phase_step env self p).
Proof.
  intros h. cbn [phase_step fst snd]. rewrite phase_events_outcomes.
  destruct (phase_events_shape env self p h) as (after & Hev & _ & Hm & _).
  split.
  - rewrite Hev. change (EvIKService p :: after) with ([EvIKService p] ++ after).
    rewrite moves_app, Hm. cbn. by rewrite app_nil_r.
  - rewrite phase_events_calls. unfold phase_result.
    destruct (outcome _ _) as [j ?| |e| |seed] eqn:E; cbn;
      try (by repeat constructor).
    + split; [done|]. by exists [], EmptyResultType, p.
    + split; [done|]. by exists [], (EmptyJoints seed), p.
Qed.

Lemma retract_step_sound (env : Env) (self : PickAndPlace) :
  sound_step env (retract_step env self).
Proof.
  intros h. cbn [retract_step fst snd]. unfold retract_events.
  set (p := raised _ _).
  destruct (phase_step_sound env self p (h ++ [EvEndpointPose])) as [Hm Hr].
  cbn [phase_step fst snd] in Hm, Hr.
  change (EvEndpointPose :: ?l) with ([EvEndpointPose] ++ l).
  rewrite moves_app, solve_outcomes_app, calls_app. cbn [solve_outcomes app].
  split; [done|].
  destruct (phase_result env p _); [done|].
  destruct Hr as (-> & os' & o & q & ? & ? & ? & Hlast).
  split; [done|]. exists os', o, q. do 3 (split; [done|]).
  change (calls [EvEndpointPose]) with [EvEndpointPose]. rewrite last_app.
  by rewrite Hlast.
Qed.

Lemma run_steps_sound (env : Env) (steps : list Step) :
  Forall (sound_step env) steps → sound_step env (run_steps steps).
Proof.
  induction 1 as [|f steps Hf _ IH]; intros h; [by repeat constructor|].
  cbn [run_steps]. specialize (Hf h).
  destruct (f h) as [[[]|e] evs]; cbn [fst snd] in *; [|done].
  destruct Hf as [Hm Hok]. specialize (IH (h ++ evs)).
  destruct (run_steps steps (h ++ evs)) as [r evs']. cbn [fst snd] in *.
  destruct IH as [Hm' Hr].
  rewrite moves_app, solve_outcomes_app, calls_app, fmap_app, join_app, Hm, Hm'.
  split; [done|]. destruct r as [[]|e].
  - by apply Forall_app.
  - destruct Hr as (-> & os' & o & p & -> & ? & ? & Hlast).
    split; [done|].
    exists (solve_outcomes env h evs ++ os'), o, p.
    rewrite app_assoc. repeat split; try done.
    + by apply Forall_app.
    + by rewrite last_app, Hlast.
Qed.

Lemma transit_steps_sound (env : Env) (self : PickAndPlace) (path : list PoseV) :
  Forall (sound_step env) (transit_steps env self path).
Proof.
  induction path as [|w path IH]; [constructor|].
  cbn [transit_steps flat_map app].
  constructor; [by apply say_sound|].
  constructor; [apply phase_step_sound|exact IH].
Qed.

Lemma pick_steps_sound (env : Env) (self : PickAndPlace) (p : PoseV)
    (path : list PoseV) :
  sound_step env (run_steps (pick_steps env self p path)).
Proof.
  apply run_steps_sound. unfold pick_steps. apply Forall_app. split.
  - repeat constructor;
      first [by apply say_sound | apply phase_step_sound | apply retract_step_sound].
  - apply transit_steps_sound.
Qed.

Lemma place_steps_sound (env : Env) (self : PickAndPlace) (p : PoseV) :
  sound_step env (run_steps (place_steps env self p)).
Proof.
  apply run_steps_sound. unfold place_steps.
  repeat constructor;
    first [by apply say_sound | apply phase_step_sound | apply retract_step_sound].
Qed.

Lemma solve_outcomes_length (env : Env) (new h : list Event) :
  length (solve_outcomes env h new) = length (solves new).
Proof.
  revert h. induction new as [|e new IH]; intros h; [done|].
  cbn [solve_outcomes]. rewrite length_app, IH.
  change (e :: new) with ([e] ++ new). rewrite solves_app, length_app.
  by destruct e.
Qed.

Lemma moved_join_length (os : list IKOutcome) :
  (length (mjoin (moved <$> os)) ≤ length os)%nat.
Proof.
  induction os as [|o os IH]; [done|].
  rewrite fmap_cons. change (mjoin (?a :: ?l)) with (a ++ mjoin l).
  rewrite length_app. cbn [length].
  pose proof (moved_length o). lia.
Qed.

(** X1. Whatever the service answers, and whether [pick] returns or raises,
    [pick] changes no object that existed before the call: the target pose
    and the waypoints hold the poses they held, so that the caller can use
    them again, and the trace before the call is the start of the trace
    after it. *)
Theorem pick_only_adds (env : Env) (self : PickAndPlace) (s : State)
    (pose : loc) (pv : PoseV) (path : list loc) (pvs : list PoseV) :
  heap_pose (heap s) pose = Some pv →
  Forall2 (λ l p, heap_pose (heap s) l = Some p) path pvs →
  let s' := (pick env self pose path s).2 in
  (∀ l o, heap s !! l = Some o → heap s' !! l = Some o)
  ∧ heap_pose (heap s') pose = Some pv
  ∧ Forall2 (λ l p, heap_pose (heap s') l = Some p) path pvs
  ∧ trace s `prefix_of` trace s'.
Proof.
  destruct s as [h t]. cbn [heap trace]. intros Hpose Hpath.
  destruct (pick_run_all env self h t pose pv path pvs Hpose Hpath) as [h' ->].
  cbn [snd heap trace]. split; [|split; [|split]].
  - intros l o Hl. by apply lookup_app_l_Some.
  - by apply heap_pose_app.
  - eapply Forall2_impl; [exact Hpath|]. intros ???. by apply heap_pose_app.
  - by apply prefix_app_r.
Qed.

Lemma pick_only_adds_witness :
  heap_pose (heap Sample.with_path) 2%nat = Some Sample.block1
  ∧ Forall2 (λ l p, heap_pose (heap Sample.with_path) l = Some p)
      [5; 8]%nat [Sample.waypoint1; Sample.waypoint2]
  ∧ let s' := (pick Sample2.second_truncated Sample.pnp 2%nat [5; 8]%nat
                 Sample.with_path).2 in
    (∀ l o, heap Sample.with_path !! l = Some o → heap s' !! l = Some o)
    ∧ heap_pose (heap s') 2%nat = Some Sample.block1
    ∧ Forall2 (λ l p, heap_pose (heap s') l = Some p)
        [5; 8]%nat [Sample.waypoint1; Sample.waypoint2]
    ∧ trace Sample.with_path `prefix_of` trace s'.
Proof.
  split; [reflexivity|]. split; [repeat constructor|].
  apply (pick_only_adds Sample2.second_truncated Sample.pnp Sample.with_path
           2%nat Sample.block1 [5; 8]%nat [Sample.waypoint1; Sample.waypoint2]).
  - reflexivity.
  - repeat constructor.
Defined.

(** X2. Whatever the service answers, and whether [place] returns or
    raises, [place] changes no object that existed before the call: the
    target pose holds the pose it held, and the trace before the call is the
    start of the trace after it. *)
Theorem place_only_adds (env : Env) (self : PickAndPlace) (s : State)
    (pose : loc) (pv : PoseV) :
  heap_pose (heap s) pose = Some pv →
  let s' := (place env self pose s).2 in
  (∀ l o, heap s !! l = Some o → heap s' !! l = Some o)
  ∧ heap_pose (heap s') pose = Some pv
  ∧ trace s `prefix_of` trace s'.
Proof.
  destruct s as [h t]. cbn [heap trace]. intros Hpose.
  destruct (place_run_all env self h t pose pv Hpose) as [h' ->].
  cbn [snd heap trace]. split; [|split].
  - intros l o Hl. by apply lookup_app_l_Some.
  - by apply heap_pose_app.
  - by apply prefix_app_r.
Qed.

Lemma place_only_adds_witness :
  heap_pose (heap Sample.start) 2%nat = Some Sample.block1
  ∧ let s' := (place Sample.never_solved Sample.pnp 2%nat Sample.start).2 in
    (∀ l o, heap Sample.start !! l = Some o → heap s' !! l = Some o)
    ∧ heap_pose (heap s') 2%nat = Some Sample.block1
    ∧ trace Sample.start `prefix_of` trace s'.
Proof.
  split; [reflexivity|].
  apply (place_only_adds Sample.never_solved Sample.pnp Sample.start 2%nat
           Sample.block1).
  reflexivity.
Defined.

(** X3. In every run of [pick] the motion commands are, in order, the
    non-empty joint configurations that the solves of this run returned: the
    limb is never moved to anything else than the answer of the solve just
    before, and there are at most as many motion commands as solves. *)
Theorem pick_moves_follow_solves (env : Env) (self : PickAndPlace)
    (s : State) (pose : loc) (pv : PoseV) (path : list loc)
    (pvs : list PoseV) :
  heap_pose (heap s) pose = Some pv →
  Forall2 (λ l p, heap_pose (heap s) l = Some p) path pvs →
  ∃ new,
    trace (pick env self pose path s).2 = trace s ++ new
    ∧ moves new = mjoin (moved <$> solve_outcomes env (trace s) new)
    ∧ (length (moves new) ≤ length (solves new))%nat.
Proof.
  destruct s as [h t]. cbn [heap trace]. intros Hpose Hpath.
  destruct (pick_run_all env self h t pose pv path pvs Hpose Hpath) as [h' ->].
  destruct (pick_steps_sound env self pv pvs t) as [Hm _].
  eexists. split; [done|]. split; [done|].
  rewrite Hm, <- (solve_outcomes_length env _ t). apply moved_join_length.
Qed.

Lemma pick_moves_follow_solves_witness :
  heap_pose (heap Sample.with_path) 2%nat = Some Sample.block1
  ∧ Forall2 (λ l p, heap_pose (heap Sample.with_path) l = Some p)
      [5; 8]%nat [Sample.waypoint1; Sample.waypoint2]
  ∧ ∃ new,
      trace (pick Sample.waypoint_unreachable Sample.pnp 2%nat [5; 8]%nat
               Sample.with_path).2
      = trace Sample.with_path ++ new
      ∧ moves new
        = mjoin (moved <$> solve_outcomes Sample.waypoint_unreachable
                             (trace Sample.with_path) new)
      ∧ (length (moves new) ≤ length (solves new))%nat.
Proof.
  split; [reflexivity|]. split; [repeat constructor|].
  apply (pick_moves_follow_solves Sample.waypoint_unreachable Sample.pnp
           Sample.with_path 2%nat Sample.block1 [5; 8]%nat
           [Sample.waypoint1; Sample.waypoint2]).
  - reflexivity.
  - repeat constructor.
Defined.

(** X4. [pick] raises in one case only: a response of the service that
    lacks the entry [resp_seeds[0]] or [resp.joints[0]] reads. The exception
    is [IndexError], every solve before that one had a response in good
    form, and the request of that solve is the last call of the run: neither
    the limb nor the gripper is called after it. When [pick] returns
    normally, every response was in good form. *)
Theorem pick_raises_on_malformed_response_only (env : Env)
    (self : PickAndPlace) (s : State) (pose : loc) (pv : PoseV)
    (path : list loc) (pvs : list PoseV) :
  heap_pose (heap s) pose = Some pv →
  Forall2 (λ l p, heap_pose (heap s) l = Some p) path pvs →
  ∃ new,
    trace (pick env self pose path s).2 = trace s ++ new
    ∧ match (pick env self pose path s).1 with
      | Ok _ =>
          Forall (λ o, malformed o = false) (solve_outcomes env (trace s) new)
      | Raise e =>
          e = IndexError
          ∧ ∃ os o p,
              solve_outcomes env (trace s) new = os ++ [o]
              ∧ Forall (λ o, malformed o = false) os
              ∧ malformed o = true
              ∧ last (calls new) = Some (EvIKService p)
      end.
Proof.
  destruct s as [h t]. cbn [heap trace]. intros Hpose Hpath.
  destruct (pick_run_all env self h t pose pv path pvs Hpose Hpath) as [h' ->].
  destruct (pick_steps_sound env self pv pvs t) as [_ Hr].
  eexists. split; [done|]. exact Hr.
Qed.

Lemma pick_raises_on_malformed_response_only_witness :
  heap_pose (heap Sample.start) 2%nat = Some Sample.block1
  ∧ Forall2 (λ l p, heap_pose (heap Sample.start) l = Some p) [] []
  ∧ ∃ new,
      trace (pick Sample2.second_truncated Sample.pnp 2%nat [] Sample.start).2
      = trace Sample.start ++ new
      ∧ match (pick Sample2.second_truncated Sample.pnp 2%nat [] Sample.start).1 with
        | Ok _ =>
            Forall (λ o, malformed o = false)
              (solve_outcomes Sample2.second_truncated (trace Sample.start) new)
        | Raise e =>
            e = IndexError
            ∧ ∃ os o p,
                solve_outcomes Sample2.second_truncated (trace Sample.start) new
                = os ++ [o]
                ∧ Forall (λ o, malformed o = false) os
                ∧ malformed o = true
                ∧ last (calls new) = Some (EvIKService p)
        end.
Proof.
  split; [reflexivity|]. split; [constructor|].
  apply (pick_raises_on_malformed_response_only Sample2.second_truncated
           Sample.pnp Sample.start 2%nat Sample.block1 [] []).
  - reflexivity.
  - constructor.
Defined.

(** X5. In every run of [place] the motion commands are, in order, the
    non-empty joint configurations that the solves of this run returned, and
    [place] raises in one case only: [IndexError] on a response that lacks
    the entry the script reads, whose request is then the last call of the
    run, so that the gripper is not opened after it. *)
Theorem place_moves_follow_solves (env : Env) (self : PickAndPlace)
    (s : State) (pose : loc) (pv : PoseV) :
  heap_pose (heap s) pose = Some pv →
  ∃ new,
    trace (place env self pose s).2 = trace s ++ new
    ∧ moves new = mjoin (moved <$> solve_outcomes env (trace s) new)
    ∧ (length (solves new) ≤ 3)%nat
    ∧ match (place env self pose s).1 with
      | Ok _ =>
          Forall (λ o, malformed o = false) (solve_outcomes env (trace s) new)
      | Raise e =>
          e = IndexError
          ∧ ∃ os o p,
              solve_outcomes env (trace s) new = os ++ [o]
              ∧ Forall (λ o, malformed o = false) os
              ∧ malformed o = true
              ∧ last (calls new) = Some (EvIKService p)
      end.
Proof.
  destruct s as [h t]. cbn [heap trace]. intros Hpose.
  destruct (place_run_all env self h t pose pv Hpose) as [h' ->].
  destruct (place_steps_sound env self pv t) as [Hm Hr].
  eexists. split; [done|]. split; [done|]. split; [|exact Hr].
  clear Hm Hr. cbn [snd trace]. unfold place_steps, run_steps, say.
  unfold phase_step at 1. cbn [fst snd].
  destruct (phase_result env _ _); cbn [fst snd];
    [|by rewrite phase_events_solves; cbn; lia].
  unfold phase_step at 1. cbn [fst snd].
  destruct (phase_result env _ _); cbn [fst snd];
    [|by rewrite solves_app, !phase_events_solves; cbn; lia].
  unfold retract_step, retract_events.
  destruct (phase_result env _ _); cbn [fst snd];
    change (EvEndpointPose :: ?l) with ([EvEndpointPose] ++ l);
    rewrite ?app_nil_r, !solves_app, !phase_events_solves; cbn; lia.
Qed.

Lemma place_moves_follow_solves_witness :
  heap_pose (heap Sample.start) 2%nat = Some Sample.block1
  ∧ ∃ new,
      trace (place Sample2.second_truncated Sample.pnp 2%nat Sample.start).2
      = trace Sample.start ++ new
      ∧ moves new
        = mjoin (moved <$> solve_outcomes Sample2.second_truncated
                             (trace Sample.start) new)
      ∧ (length (solves new) ≤ 3)%nat
      ∧ match (place Sample2.second_truncated Sample.pnp 2%nat Sample.start).1 with
        | Ok _ =>
            Forall (λ o, malformed o = false)
              (solve_outcomes Sample2.second_truncated (trace Sample.start) new)
        | Raise e =>
            e = IndexError
            ∧ ∃ os o p,
                solve_outcomes Sample2.second_truncated (trace Sample.start) new
                = os ++ [o]
                ∧ Forall (λ o, malformed o = false) os
                ∧ malformed o = true
                ∧ last (calls new) = Some (EvIKService p)
        end.
Proof.
  split; [reflexivity|].
  apply (place_moves_follow_solves Sample2.second_truncated Sample.pnp
           Sample.start 2%nat Sample.block1).
  reflexivity.
Defined.

(** ** The joint dict of [ik_request] *)

Lemma foldl_insert_other (l : list (string * float)) (m : JointAngles) (k : string) :
  k ∉ l.*1 → foldl (λ d kv, <[kv.1 := kv.2]> d) m l !! k = m !! k.
Proof.
  revert m. induction l as [|[k' v'] l IH]; intros m Hk; [done|].
  cbn [foldl]. rewrite fmap_cons in Hk. apply not_elem_of_cons in Hk as [Hne Hk].
  rewrite IH by done. cbn [fst snd] in *. by rewrite lookup_insert_ne.
Qed.

Lemma foldl_insert_last (l : list (string * float)) (m : JointAngles)
    (k : string) (v : float) :
  foldl (λ d kv, <[kv.1 := kv.2]> d) m (l ++ [(k, v)]) !! k = Some v.
Proof. rewrite foldl_app. cbn. apply lookup_insert_eq. Qed.

Lemma foldl_insert_elem (l : list (string * float)) (m : JointAngles) (k : string) :
  k ∈ l.*1 →
  ∃ v, (k, v) ∈ l ∧ foldl (λ d kv, <[kv.1 := kv.2]> d) m l !! k = Some v.
Proof.
  revert m. induction l as [|[k' v'] l IH]; intros m Hk; [by apply elem_of_nil in Hk|].
  cbn [foldl]. destruct (decide (k ∈ l.*1)) as [Hin|Hout].
  - destruct (IH (<[k' := v']> m) Hin) as (v & Hv & Hl).
    exists v. split; [by right|done].
  - rewrite fmap_cons in Hk. apply elem_of_cons in Hk as [->|?]; [|done].
    exists v'. split; [by left|]. rewrite foldl_insert_other by done.
    apply lookup_insert_eq.
Qed.

Lemma zip_fst_elem (ks : list string) (vs : list float) (k : string) :
  k ∈ (zip ks vs).*1 ↔ k ∈ take (length vs) ks.
Proof.
  revert vs. induction ks as [|k' ks IH]; intros [|v vs]; cbn; try done.
  by rewrite !elem_of_cons, IH.
Qed.

(** X6. The dict that [ik_request] makes of the joint names and positions of
    a response, [dict(zip(names, positions))]: it is empty exactly when
    there is no name or no position; its keys are the names that have a
    position; a name that occurs once has the position at its index; and of
    a name that occurs again, the last position counts. *)
Theorem dict_zip_lookup (names : list string) (positions : list float) :
  (dict_zip names positions = ∅ ↔ names = [] ∨ positions = [])
  ∧ (∀ k, is_Some (dict_zip names positions !! k)
          ↔ k ∈ take (length positions) names)
  ∧ (∀ i k v, NoDup names → names !! i = Some k → positions !! i = Some v →
              dict_zip names positions !! k = Some v)
  ∧ (∀ k v, length names = length positions →
            dict_zip (names ++ [k]) (positions ++ [v]) !! k = Some v).
Proof.
  unfold dict_zip. split; [|split; [|split]].
  - split.
    + intros Hempty. destruct names as [|k ks]; [by left|].
      destruct positions as [|v vs]; [by right|]. exfalso.
      destruct (foldl_insert_elem (zip (k :: ks) (v :: vs)) ∅ k) as (v' & _ & Hl).
      { cbn. by left. }
      by rewrite Hempty in Hl.
    + intros [-> | ->]; [done|]. by destruct names.
  - intros k. rewrite <- zip_fst_elem. split.
    + intros Hsome. destruct (decide (k ∈ (zip names positions).*1)); [done|].
      rewrite foldl_insert_other in Hsome by done.
      by apply is_Some_None in Hsome.
    + intros Hin. destruct (foldl_insert_elem _ ∅ k Hin) as (v & _ & ->). eauto.
  - intros i k v Hnodup Hk Hv.
    assert (Hin : k ∈ (zip names positions).*1).
    { apply zip_fst_elem, list_elem_of_lookup. exists i.
      rewrite lookup_take_lt; [done|]. by apply lookup_lt_Some in Hv. }
    destruct (foldl_insert_elem _ ∅ k Hin) as (v' & Hv' & ->). f_equal.
    apply list_elem_of_lookup in Hv' as [j Hj].
    apply lookup_zip_with_Some in Hj as (k'' & v'' & Heq & Hkj & Hvj).
    injection Heq as <- <-.
    assert (i = j) by (eapply NoDup_lookup; eauto). subst j. congruence.
  - intros k v Hlen. rewrite zip_with_app by done. apply foldl_insert_last.
Qed.

(** X7. A response that reports a solution (a result type other than
    [RESULT_INVALID]) and has no joint name or no joint position makes
    [ik_request] return the empty dict. The guarded move takes it as no
    solution: [_servo_to_pose] sends the request, moves nothing, logs its
    refusal and returns normally. *)
Theorem empty_solution_is_not_moved (env : Env) (self : PickAndPlace)
    (s : State) (pose : loc) (pv : PoseV) (resp : IKResponse) (seed : Z)
    (seeds : list Z) (js : JointState) (rest : list JointState) :
  heap_pose (heap s) pose = Some pv →
  iksvc env (trace s) pv = Responds resp →
  struct_unpack_B (result_type resp) = seed :: seeds →
  seed ≠ RESULT_INVALID (consts env) →
  joints resp = js :: rest →
  name js = [] ∨ position_ js = [] →
  (ik_request env self pose s).1 = Ok (PyDict ∅)
  ∧ ∃ new,
      _servo_to_pose env self pose s
      = (Ok tt, {| heap := heap s; trace := trace s ++ new |})
      ∧ head new = Some (EvIKService pv)
      ∧ moves new = []
      ∧ last new
        = Some (EvLogErr "No Joint Angles provided for move_to_joint_positions. Staying put.").
Proof.
  destruct s as [h t]. cbn [heap trace]. intros H Hrep Hseeds Hseed Hjs Hempty.
  assert (Hd : dict_zip (name js) (position_ js) = ∅).
  { by apply dict_zip_lookup. }
  assert (Ho : outcome (consts env) (iksvc env t pv) = Solved ∅ seed).
  { unfold outcome. rewrite Hrep, Hseeds, Hjs, Hd.
    by apply Z.eqb_neq in Hseed as ->. }
  split.
  - rewrite (ik_request_run env self h t pose pv H). cbn [fst]. by rewrite Ho.
  - rewrite (servo_run env self h t pose pv H).
    unfold phase_result, phase_events. rewrite Ho. cbn [ik_value].
    eexists. split; [done|]. split; [done|].
    change (EvIKService pv :: ?l) with ([EvIKService pv] ++ l).
    rewrite !moves_app, !last_app.
    destruct (ik_log_quiet env self (Solved ∅ seed)) as (_ & -> & _).
    done.
Qed.

Lemma empty_solution_is_not_moved_witness :
  heap_pose (heap Sample.start) 2%nat = Some Sample.block1
  ∧ iksvc Sample2.always_nameless (trace Sample.start) Sample.block1
    = Responds (mkIKResponse [mkJointState [] []] [Byte.x02])
  ∧ struct_unpack_B (result_type (mkIKResponse [mkJointState [] []] [Byte.x02]))
    = [2]
  ∧ 2 ≠ RESULT_INVALID (consts Sample2.always_nameless)
  ∧ joints (mkIKResponse [mkJointState [] []] [Byte.x02]) = [mkJointState [] []]
  ∧ (name (mkJointState [] []) = [] ∨ position_ (mkJointState [] []) = [])
  ∧ (ik_request Sample2.always_nameless Sample.pnp 2%nat Sample.start).1
    = Ok (PyDict ∅)
  ∧ ∃ new,
      _servo_to_pose Sample2.always_nameless Sample.pnp 2%nat Sample.start
      = (Ok tt, {| heap := heap Sample.start; trace := trace Sample.start ++ new |})
      ∧ head new = Some (EvIKService Sample.block1)
      ∧ moves new = []
      ∧ last new
        = Some (EvLogErr "No Joint Angles provided for move_to_joint_positions. Staying put.").
Proof.
  split; [reflexivity|]. split; [reflexivity|]. split; [reflexivity|].
  split; [discriminate|]. split; [reflexivity|]. split; [by left|].
  apply (empty_solution_is_not_moved Sample2.always_nameless Sample.pnp
           Sample.start 2%nat Sample.block1
           (mkIKResponse [mkJointState [] []] [Byte.x02]) 2 []
           (mkJointState [] []) []);
    first [reflexivity | discriminate | by left].
Defined.

(** X8. With start angles that are not empty, [move_to_start] sends them to
    the limb in one motion command, then opens the gripper, and returns
    normally after two sleeps of one second; it never reads
    [_joint_names], and it touches no object. *)
Theorem move_to_start_moves_once (self : PickAndPlace) (d : JointAngles)
    (s : State) :
  d ≠ ∅ →
  move_to_start self (PyDict d) s
  = (Ok tt,
     {| heap := heap s;
        trace := trace s ++
          [EvPrint ("Moving the " +:+ _limb_name self +:+ " arm to start pose...");
           EvMove d;
           EvGripperOpen; EvSleep 1;
           EvSleep 1;
           EvPrint "Running. Ctrl-c to quit"] |}).
Proof.
  intros Hd. destruct s as [h t]. unfold move_to_start.
  assert (Ht : truthy (PyDict d) = true) by by apply bool_decide_eq_true_2.
  erewrite bind_run by reflexivity. rewrite Ht. cbn [negb].
  erewrite bind_run by reflexivity.
  erewrite bind_run; [|apply guarded_move_run].
  erewrite bind_run by apply gripper_open_run.
  erewrite bind_run by reflexivity.
  unfold print, emit, sleep, move_events. cbn [heap trace].
  rewrite bool_decide_eq_true_2 by done.
  by rewrite <- !app_assoc.
Qed.

Lemma move_to_start_moves_once_witness :
  Sample.solution ≠ ∅
  ∧ move_to_start Sample.pnp (PyDict Sample.solution) Sample.start
    = (Ok tt,
       {| heap := heap Sample.start;
          trace := trace Sample.start ++
            [EvPrint ("Moving the " +:+ _limb_name Sample.pnp +:+ " arm to start pose...");
             EvMove Sample.solution;
             EvGripperOpen; EvSleep 1;
             EvSleep 1;
             EvPrint "Running. Ctrl-c to quit"] |}).
Proof.
  assert (H : Sample.solution ≠ ∅).
  { apply (bool_decide_eq_true_1 (Sample.solution ≠ ∅)). vm_compute. reflexivity. }
  split; [exact H|].
  apply (move_to_start_moves_once Sample.pnp Sample.solution Sample.start H).
Defined.

(** ** The models of the simulated world *)

Module GazeboFacts.
Import Gazebo.
Local Open Scope gz_scope.

Lemma gbind_run {A B} (m : G A) (k : A → G B) (t t' : list GzEvent) (a : A) :
  m t = (Done a, t') → gbind m k t = k a t'.
Proof. unfold gbind. by intros ->. Qed.

Lemma gbind_raise {A B} (m : G A) (k : A → G B) (t t' : list GzEvent)
    (e : gz_exn) :
  m t = (Raised e, t') → gbind m k t = (Raised e, t').
Proof. unfold gbind. by intros ->. Qed.

Lemma ros_get_path_run (w : World) (package pkg : string) (t : list GzEvent) :
  get_path w package = Some pkg →
  ros_get_path w package t = (Done pkg, t ++ [GzGetPath package]).
Proof. intros H. unfold ros_get_path, gbind, gemit. by rewrite H. Qed.

Lemma read_model_run (w : World) (path content : string) (t : list GzEvent) :
  read_file w path = Some content →
  read_model w path t = (Done (remove_newlines content), t ++ [GzRead path]).
Proof. intros H. unfold read_model, gbind, gemit. by rewrite H. Qed.

Lemma read_model_missing (w : World) (path : string) (t : list GzEvent) :
  read_file w path = None →
  read_model w path t = (Raised (IOError path), t ++ [GzRead path]).
Proof. intros H. unfold read_model, gbind, gemit. by rewrite H. Qed.

Lemma remove_newlines_chars (s : string) :
  String.list_ascii_of_string (remove_newlines s)
  = filter (λ c, c ≠ newline) (String.list_ascii_of_string s).
Proof.
  induction s as [|c s IH]; [done|]. cbn [remove_newlines String.list_ascii_of_string].
  rewrite filter_cons. destruct (Ascii.eqb_spec c newline) as [->|Hne].
  - by rewrite decide_False by (intros H; by apply H).
  - rewrite decide_True by done. cbn. by rewrite IH.
Qed.


(** X9. When the package is found and one of the four model files cannot be
    opened, [load_gazebo_models] raises [IOError] for the first such file in
    reading order (table, block 1, block 2, wall), having read the files
    before it: it waits for no service and spawns no model, not even the
    models whose files were read. *)
Theorem load_stops_at_missing_file (w : World) (a : LoadArgs)
    (t : list GzEvent) (pkg : string) (i : nat) (path : string) :
  get_path w "project4" = Some pkg →
  model_files pkg !! i = Some path →
  read_file w path = None →
  (∀ j p, (j < i)%nat → model_files pkg !! j = Some p → is_Some (read_file w p)) →
  load_gazebo_models w a t
  = (Raised (IOError path),
     t ++ GzGetPath "project4" :: (GzRead <$> take (S i) (model_files pkg))).
Proof.
  intros Hpkg Hi Hmissing Hbefore. unfold load_gazebo_models.
  rewrite (gbind_run _ _ _ _ _ (ros_get_path_run w _ pkg t Hpkg)).
  assert (Hread : ∀ j p, (j < i)%nat → model_files pkg !! j = Some p →
                         ∃ c, read_file w p = Some c).
  { intros j p Hj Hp. by destruct (Hbefore j p Hj Hp) as [c ?]; exists c. }
  destruct i as [|[|[|[|i]]]]; cbn in Hi; try done; injection Hi as <-.
  - rewrite (gbind_raise _ _ _ _ _ (read_model_missing w _ _ Hmissing)).
    cbn. by rewrite <- app_assoc.
  - destruct (Hread 0%nat _ ltac:(lia) eq_refl) as [c0 H0].
    rewrite (gbind_run _ _ _ _ _ (read_model_run w _ _ _ H0)).
    rewrite (gbind_raise _ _ _ _ _ (read_model_missing w _ _ Hmissing)).
    cbn. by rewrite <- !app_assoc.
  - destruct (Hread 0%nat _ ltac:(lia) eq_refl) as [c0 H0].
    destruct (Hread 1%nat _ ltac:(lia) eq_refl) as [c1 H1].
    rewrite (gbind_run _ _ _ _ _ (read_model_run w _ _ _ H0)).
    rewrite (gbind_run _ _ _ _ _ (read_model_run w _ _ _ H1)).
    rewrite (gbind_raise _ _ _ _ _ (read_model_missing w _ _ Hmissing)).
    cbn. by rewrite <- !app_assoc.
  - destruct (Hread 0%nat _ ltac:(lia) eq_refl) as [c0 H0].
    destruct (Hread 1%nat _ ltac:(lia) eq_refl) as [c1 H1].
    destruct (Hread 2%nat _ ltac:(lia) eq_refl) as [c2 H2].
    rewrite (gbind_run _ _ _ _ _ (read_model_run w _ _ _ H0)).
    rewrite (gbind_run _ _ _ _ _ (read_model_run w _ _ _ H1)).
    rewrite (gbind_run _ _ _ _ _ (read_model_run w _ _ _ H2)).
    rewrite (gbind_raise _ _ _ _ _ (read_model_missing w _ _ Hmissing)).
    cbn. by rewrite <- !app_assoc.
Qed.


(** Runs the service calls of a block, one case per call that raises. *)
Ltac run_calls :=
  unfold gbind, try_service, call, gemit;
  repeat match goal with
    | |- context [service_fails ?w ?h] =>
        let E := fresh "E" in destruct (service_fails w h) eqn:E
    end.



Lemma load_stops_at_missing_file_witness :
  let path := "/ws/project4/models/block/block2.urdf" in
  get_path sample_world_missing "project4" = Some "/ws/project4"
  ∧ model_files "/ws/project4" !! 2%nat = Some path
  ∧ read_file sample_world_missing path = None
  ∧ (∀ j p, (j < 2)%nat → model_files "/ws/project4" !! j = Some p →
            is_Some (read_file sample_world_missing p))
  ∧ load_gazebo_models sample_world_missing defaults []
    = (Raised (IOError path),
       [] ++ GzGetPath "project4"
          :: (GzRead <$> take 3 (model_files "/ws/project4"))).
Proof.
  assert (Hbefore : ∀ j p, (j < 2)%nat → model_files "/ws/project4" !! j = Some p →
                           is_Some (read_file sample_world_missing p)).
  { intros [|[|j]] p Hj Hp; try lia; injection Hp as <-; by eexists. }
  intros path. split; [reflexivity|]. split; [reflexivity|].
  split; [reflexivity|]. split; [exact Hbefore|].
  apply (load_stops_at_missing_file sample_world_missing defaults []
           "/ws/project4" 2 path); first [reflexivity | exact Hbefore].
Defined.

(** X11. [delete_gazebo_models] returns normally whatever the delete
    service does. It asks for the deletion of "cafe_table" and then of
    "block"; when a call raises [ServiceException], the calls after it are
    left out and the failure goes to the log at info level, never at error
    level. *)
Theorem delete_asks_for_two_names (w : World) (t : list GzEvent) :
  ∃ new,
    delete_gazebo_models w t = (Done tt, t ++ new)
    ∧ deleted new `prefix_of` ["cafe_table"; "block"]
    ∧ deleted new ≠ []
    ∧ Forall (λ e, ∀ m, e ≠ GzLogErr m) new
    ∧ match service_fails w (t ++ [GzDelete "cafe_table"]) with
      | Some e =>
          new = [GzDelete "cafe_table";
                 GzLogInfo ("Delete Model service call failed: " +:+ e)]
      | None =>
          match service_fails w ((t ++ [GzDelete "cafe_table"]) ++ [GzDelete "block"]) with
          | Some e =>
              new = [GzDelete "cafe_table"; GzDelete "block";
                     GzLogInfo ("Delete Model service call failed: " +:+ e)]
          | None => new = [GzDelete "cafe_table"; GzDelete "block"]
          end
      end.
Proof.
  unfold delete_gazebo_models. run_calls; rewrite <- ?app_assoc; cbn [app];
    eexists; (split; [reflexivity|]); cbn [deleted omap list_omap].
  all: split; [eexists; reflexivity|].
  all: split; [done|].
  all: split; [repeat constructor; done|].
  all: done.
Qed.

Ltac names_subset :=
  let n := fresh "n" in
  let Hn := fresh "Hn" in
  intros n Hn;
  repeat (apply elem_of_cons in Hn as [->|Hn]; [by repeat constructor|]);
  by apply elem_of_nil in Hn.

(** What [load_gazebo_models] adds to the trace, in every world. *)
Lemma load_only_spawns_its_models (w : World) (a : LoadArgs) (t : list GzEvent) :
  ∃ new, (load_gazebo_models w a t).2 = t ++ new
         ∧ spawned new ⊆ ["cafe_table_1"; "cafe_table_2"; "wall"; "block1"; "block2"]
         ∧ deleted new = [].
Proof.
  unfold load_gazebo_models, ros_get_path, read_model.
  unfold gbind at 1 2. unfold gemit at 1.
  destruct (get_path w "project4") as [pkg|]; cbn [graise gret];
    [|eexists; split; [reflexivity|]; split; [names_subset|done]].
  unfold gbind at 1 2. unfold gemit at 1.
  destruct (read_file w _) as [c0|]; cbn [graise gret];
    [|rewrite <- ?app_assoc; eexists; split; [reflexivity|]; split; [names_subset|done]].
  unfold gbind at 1 2. unfold gemit at 1.
  destruct (read_file w _) as [c1|]; cbn [graise gret];
    [|rewrite <- ?app_assoc; eexists; split; [reflexivity|]; split; [names_subset|done]].
  unfold gbind at 1 2. unfold gemit at 1.
  destruct (read_file w _) as [c2|]; cbn [graise gret];
    [|rewrite <- ?app_assoc; eexists; split; [reflexivity|]; split; [names_subset|done]].
  unfold gbind at 1 2. unfold gemit at 1.
  destruct (read_file w _) as [c3|]; cbn [graise gret];
    [|rewrite <- ?app_assoc; eexists; split; [reflexivity|]; split; [names_subset|done]].
  run_calls; rewrite <- ?app_assoc; cbn [app snd];
    eexists; (split; [reflexivity|]); cbn [spawned deleted omap list_omap];
    (split; [names_subset|done]).
Qed.

(** X12. The two model names that [delete_gazebo_models] asks to delete,
    "cafe_table" and "block", are names that [load_gazebo_models] never
    spawns: in every world and for every outcome of the calls, no model
    spawned by the one is among the models deleted by the other. *)
Theorem deleted_models_were_never_spawned (w w' : World) (a : LoadArgs)
    (t t' : list GzEvent) :
  ∃ new new',
    (load_gazebo_models w a t).2 = t ++ new
    ∧ (delete_gazebo_models w' t').2 = t' ++ new'
    ∧ spawned new' = [] ∧ deleted new = []
    ∧ ∀ n, n ∈ spawned new → n ∉ deleted new'.
Proof.
  destruct (load_only_spawns_its_models w a t) as (new & Hnew & Hsub & Hdel).
  destruct (delete_asks_for_two_names w' t') as (new' & Hrun & [k Hk] & _ & _ & Hcases).
  exists new, new'. rewrite Hrun. split; [done|]. split; [done|].
  split; [|split; [done|]].
  - destruct (service_fails w' _); [by subst|].
    destruct (service_fails w' _); by subst.
  - intros n Hn Hd. apply Hsub in Hn.
    assert (Hin : n ∈ ["cafe_table"; "block"]).
    { rewrite Hk. apply elem_of_app. by left. }
    repeat (apply elem_of_cons in Hn as [->|Hn];
            [repeat (apply elem_of_cons in Hin as [Hin|Hin]; [discriminate Hin|]);
             by apply elem_of_nil in Hin|]).
    by apply elem_of_nil in Hn.
Qed.
End GazeboFacts.

(** ** The pose files of [main] *)

Module PoseFileFacts.
Import PoseFile.
Local Open Scope read_scope.

Lemma append_cons x (a b : string) : String x a +:+ b = String x (a +:+ b).
Proof. reflexivity. Qed.

Lemma append_nil (b : string) : EmptyString +:+ b = b.
Proof. reflexivity. Qed.

Lemma occurrences_app c (a b : string) :
  occurrences c (a +:+ b) = (occurrences c a + occurrences c b)%nat.
Proof.
  induction a as [|x a IH]; [reflexivity|].
  rewrite append_cons. simpl. rewrite IH. lia.
Qed.

Lemma occurrences_cons_0 c x (s : string) :
  occurrences c (String x s) = 0%nat →
  Ascii.eqb x c = false ∧ occurrences c s = 0%nat.
Proof. simpl. destruct (Ascii.eqb x c); [lia | tauto]. Qed.

Lemma append_assoc (a b c : string) : (a +:+ b) +:+ c = a +:+ b +:+ c.
Proof.
  induction a as [|x a IH]; [reflexivity|].
  by rewrite !append_cons, IH.
Qed.

(** *** [readlines] *)

Lemma readlines_cons c (t : string) :
  readlines (String c t)
  = if Ascii.eqb c newline then String c EmptyString :: readlines t
    else match readlines t with
         | [] => [String c EmptyString]
         | l :: ls => String c l :: ls
         end.
Proof. reflexivity. Qed.

Lemma readlines_nonempty c (t : string) : readlines (String c t) ≠ [].
Proof.
  simpl. destruct (Ascii.eqb c newline); [done|].
  by destruct (readlines t).
Qed.

Lemma readlines_row (l rest : string) :
  occurrences newline l = 0%nat →
  readlines (l +:+ String newline rest)
  = (l +:+ String newline EmptyString) :: readlines rest.
Proof.
  induction l as [|x l IH]; intros H.
  - reflexivity.
  - apply occurrences_cons_0 in H as [Hx H].
    rewrite !append_cons. simpl. rewrite Hx, (IH H). reflexivity.
Qed.

(** The last character of a text only shows as the last character of the
    last line. *)
Lemma readlines_snoc (t : string) :
  ∃ init l, ∀ c,
    readlines (t +:+ String c EmptyString)
    = init ++ [l +:+ String c EmptyString].
Proof.
  induction t as [|a t (init & l & IH)].
  - exists [], EmptyString. intros c. rewrite append_nil. simpl.
    by destruct (Ascii.eqb c newline).
  - destruct (Ascii.eqb a newline) eqn:Ha.
    + exists (String a EmptyString :: init), l. intros c.
      rewrite append_cons. simpl. rewrite Ha, IH. reflexivity.
    + destruct init as [|i init].
      * exists [], (String a l). intros c.
        rewrite append_cons. simpl. rewrite Ha, IH. reflexivity.
      * exists (String a i :: init), l. intros c.
        rewrite append_cons. simpl. rewrite Ha, IH. reflexivity.
Qed.

Lemma readlines_app (t1 t2 : string) :
  whole_lines t1 = true →
  readlines (t1 +:+ t2) = readlines t1 ++ readlines t2.
Proof.
  induction t1 as [|a t1 IH]; intros H; [reflexivity|].
  destruct t1 as [|b t1].
  - simpl in H. rewrite append_cons, append_nil. simpl. rewrite H.
    reflexivity.
  - specialize (IH H). rewrite append_cons.
    rewrite (readlines_cons a (String b t1)), (readlines_cons a (_ +:+ _)).
    rewrite IH.
    destruct (Ascii.eqb a newline); [reflexivity|].
    pose proof (readlines_nonempty b t1) as Hne.
    by destruct (readlines (String b t1)).
Qed.

(** *** [p[:-1]] *)

Lemma drop_last_snoc (l : string) c :
  drop_last (l +:+ String c EmptyString) = l.
Proof.
  induction l as [|a l IH]; [reflexivity|].
  rewrite append_cons. simpl. rewrite IH. by destruct l.
Qed.

(** *** [split] *)

Lemma split_plain sep (a : string) :
  occurrences sep a = 0%nat → split sep a = [a].
Proof.
  induction a as [|x a IH]; intros H; [reflexivity|].
  apply occurrences_cons_0 in H as [Hx H].
  simpl. rewrite Hx, (IH H). reflexivity.
Qed.

Lemma split_field sep (a s : string) :
  occurrences sep a = 0%nat →
  split sep (a +:+ String sep s) = a :: split sep s.
Proof.
  induction a as [|x a IH]; intros H.
  - rewrite append_nil. simpl. by rewrite Ascii.eqb_refl.
  - apply occurrences_cons_0 in H as [Hx H].
    rewrite append_cons. simpl. rewrite Hx, (IH H). reflexivity.
Qed.

Lemma split_length sep (s : string) :
  length (split sep s) = S (occurrences sep s).
Proof.
  induction s as [|x s IH]; [reflexivity|].
  simpl. destruct (Ascii.eqb x sep); simpl; [by rewrite IH|].
  destruct (split sep s); simpl in *; lia.
Qed.

Lemma split_columns (a b c : string) :
  plain a → plain b → plain c →
  split comma (columns a b c) = [a; b; c].
Proof.
  intros [Ha _] [Hb _] [Hc _]. unfold columns.
  rewrite (split_field _ _ _ Ha), (split_field _ _ _ Hb),
    (split_plain _ _ Hc).
  reflexivity.
Qed.

Lemma split_more_columns (a b c more : string) :
  plain a → plain b → plain c →
  ∃ fs, split comma (columns a b c +:+ String comma more) = a :: b :: c :: fs.
Proof.
  intros [Ha _] [Hb _] [Hc _]. unfold columns.
  rewrite append_assoc, append_cons, (split_field _ _ _ Ha).
  rewrite append_assoc, append_cons, (split_field _ _ _ Hb).
  rewrite (split_field _ _ _ Hc).
  eauto.
Qed.

Lemma columns_one_line (a b c : string) :
  plain a → plain b → plain c → occurrences newline (columns a b c) = 0%nat.
Proof.
  intros [_ Ha] [_ Hb] [_ Hc]. unfold columns.
  rewrite occurrences_app. simpl. rewrite occurrences_app. simpl.
  rewrite Ha, Hb, Hc. reflexivity.
Qed.

Section ReadingFacts.
Variable float : string → option PrimFloat.float.
Variable o : Quaternion.

Lemma item_at p i f :
  0 ≤ i → p !! Z.to_nat i = Some f → item p i = Read f.
Proof.
  intros Hi H. pose proof (lookup_lt_Some _ _ _ H) as Hlt.
  unfold item, py_getitem.
  destruct (Z.ltb_spec i 0); [lia|].
  destruct (Z.leb_spec 0 i); [|lia].
  destruct (Z.ltb_spec i (Z.of_nat (length p))); [|lia].
  simpl. rewrite H. reflexivity.
Qed.

Lemma new_pose_three (a b c : string) fs :
  new_pose float o (a :: b :: c :: fs) = new_pose float o [a; b; c].
Proof.
  unfold new_pose.
  rewrite !(item_at _ 0 a), !(item_at _ 1 b), !(item_at _ 2 c)
    by first [lia | reflexivity].
  reflexivity.
Qed.

Lemma new_pose_converts (a b c : string) v :
  converts float (a, b, c) v → new_pose float o [a; b; c] = Read (pose_at o v).
Proof.
  intros (Ha & Hb & Hc). simpl in *.
  unfold new_pose, item, to_float. simpl.
  rewrite Ha. simpl. rewrite Hb. simpl. rewrite Hc. reflexivity.
Qed.

Lemma item_fails p i e :
  item p i = Fails e → e = Builtin IndexError.
Proof.
  unfold item, py_getitem.
  repeat case_match; intros; simplify_eq; reflexivity.
Qed.

Lemma new_pose_fails p e :
  new_pose float o p = Fails e → e = ValueError ∨ e = Builtin IndexError.
Proof.
  unfold new_pose, to_float.
  destruct (item p 0) eqn:E0; simpl;
    [|apply item_fails in E0; intros; simplify_eq; tauto].
  destruct (float _); simpl; [|intros; simplify_eq; tauto].
  destruct (item p 1) eqn:E1; simpl;
    [|apply item_fails in E1; intros; simplify_eq; tauto].
  destruct (float _); simpl; [|intros; simplify_eq; tauto].
  destruct (item p 2) eqn:E2; simpl;
    [|apply item_fails in E2; intros; simplify_eq; tauto].
  destruct (float _); simpl; [|intros; simplify_eq; tauto].
  discriminate.
Qed.

Lemma new_pose_short p :
  (length p < 3)%nat → ∃ e, new_pose float o p = Fails e.
Proof.
  intros H. destruct p as [|a [|b [|c p]]]; simpl in H; try lia;
    unfold new_pose, item, to_float; simpl.
  - eauto.
  - destruct (float a); simpl; eauto.
  - destruct (float a); simpl; [|by eauto].
    destruct (float b); simpl; eauto.
Qed.

Lemma append_poses_fails poses acc e :
  append_poses float o poses acc = Fails e → e = ValueError ∨ e = Builtin IndexError.
Proof.
  revert acc. induction poses as [|p poses IH]; intros acc; simpl.
  - discriminate.
  - destruct (new_pose float o p) eqn:E; simpl.
    + apply IH.
    + intros; simplify_eq. by apply (new_pose_fails p).
Qed.

Lemma append_poses_bad_line poses acc p :
  p ∈ poses → (∃ e, new_pose float o p = Fails e) →
  ∃ e, append_poses float o poses acc = Fails e.
Proof.
  intros Hin [e He]. revert acc.
  induction poses as [|q poses IH]; intros acc.
  - by apply elem_of_nil in Hin.
  - simpl. destruct (new_pose float o q) eqn:E; simpl; [|by eauto].
    apply elem_of_cons in Hin as [->|Hin]; [congruence|].
    by apply IH.
Qed.

Lemma append_poses_app l1 l2 acc :
  append_poses float o (l1 ++ l2) acc
  = (r <- append_poses float o l1 acc ;; append_poses float o l2 r).
Proof.
  revert acc. induction l1 as [|p l1 IH]; intros acc; simpl; [reflexivity|].
  destruct (new_pose float o p); simpl; [apply IH | reflexivity].
Qed.

Lemma append_poses_cons_eq p q l acc :
  new_pose float o p = new_pose float o q →
  append_poses float o (p :: l) acc = append_poses float o (q :: l) acc.
Proof. intros H. simpl. by rewrite H. Qed.

Lemma append_poses_table rows vals acc :
  Forall plain_row rows →
  Forall2 (converts float) rows vals →
  append_poses float o ((λ p, split comma (drop_last p)) <$> readlines (table rows))
    acc
  = Read (acc ++ (pose_at o <$> vals)).
Proof.
  intros Hp Hc. revert acc Hp.
  induction Hc as [|[[a b] c] v rows vals Hv Hc IH]; intros acc Hp.
  - simpl. by rewrite app_nil_r.
  - apply Forall_cons in Hp as [(Ha & Hb & Hcc) Hp]. simpl in Ha, Hb, Hcc.
    simpl table.
    rewrite readlines_row by by apply columns_one_line.
    rewrite fmap_cons, drop_last_snoc, split_columns by done.
    simpl append_poses. rewrite (new_pose_converts _ _ _ _ Hv). simpl.
    rewrite (IH _ Hp), <- app_assoc. reflexivity.
Qed.

(** X13. Reading back a table: for a text of rows [a,b,c] and a line feed,
    with no comma and no line feed inside a field, on whose fields [float]
    gives numbers, lines 315-320 return one pose for each row, in the order
    of the rows, with the three numbers as x, y and z and with the overhead
    orientation. *)
Theorem read_poses_round_trip rows vals :
  Forall plain_row rows →
  Forall2 (converts float) rows vals →
  read_poses float o (table rows) = Read (pose_at o <$> vals).
Proof.
  intros Hp Hc. unfold read_poses.
  by rewrite (append_poses_table _ _ [] Hp Hc).
Qed.

(** X14. The last character of a pose file is never read: [p[:-1]] drops
    it, line feed or not. Two texts that differ in their last character only
    give the same poses or the same exception; a file whose last line has no
    line feed loses the last character of its last field. *)
Theorem last_character_is_never_read (text : string) (c1 c2 : Ascii.ascii) :
  read_poses float o (text +:+ String c1 EmptyString)
  = read_poses float o (text +:+ String c2 EmptyString).
Proof.
  unfold read_poses.
  destruct (readlines_snoc text) as (init & l & H).
  rewrite !H, !fmap_app. simpl. rewrite !drop_last_snoc. reflexivity.
Qed.

(** X15. A line with fewer than two commas before its last character, a
    blank line for one, makes the reading of the whole file raise, and what
    is raised is [ValueError] or [IndexError]: no pose list is returned,
    however many good lines the file has. *)
Theorem short_line_fails (text l : string) :
  l ∈ readlines text →
  (occurrences comma (drop_last l) < 2)%nat →
  ∃ e, read_poses float o text = Fails e ∧ (e = ValueError ∨ e = Builtin IndexError).
Proof.
  intros Hin Hlt. unfold read_poses.
  destruct (append_poses_bad_line
              ((λ p, split comma (drop_last p)) <$> readlines text) []
              (split comma (drop_last l))) as [e He].
  - by apply (list_elem_of_fmap_2 (λ p, split comma (drop_last p))).
  - apply new_pose_short. rewrite split_length. lia.
  - exists e. split; [exact He|]. by apply append_poses_fails in He.
Qed.

(** X16. Columns after the third are never converted: a line [a,b,c,more]
    gives what the line [a,b,c] gives, whatever [more] is, numbers or
    not. *)
Theorem more_columns_are_ignored (before a b c more rest : string) :
  whole_lines before = true →
  plain a → plain b → plain c →
  occurrences newline more = 0%nat →
  read_poses float o
    (before +:+ (columns a b c +:+ String comma more) +:+ String newline rest)
  = read_poses float o (before +:+ columns a b c +:+ String newline rest).
Proof.
  intros Hb Ha Hb' Hc Hm. unfold read_poses.
  rewrite !(readlines_app before) by done.
  rewrite !readlines_row.
  - rewrite !fmap_app, !fmap_cons, !append_poses_app, !drop_last_snoc.
    destruct (split_more_columns a b c more Ha Hb' Hc) as [fs ->].
    rewrite split_columns by done.
    destruct (append_poses float o _ []); simpl; [|reflexivity].
    rewrite new_pose_three. reflexivity.
  - by apply columns_one_line.
  - rewrite occurrences_app. simpl.
    rewrite (columns_one_line a b c), Hm by done. reflexivity.
Qed.

End ReadingFacts.

Lemma read_poses_round_trip_witness :
  Forall plain_row sample_rows
  ∧ Forall2 (converts sample_float) sample_rows sample_values
  ∧ read_poses sample_float Sample.overhead_orientation (table sample_rows)
    = Read [Sample.block1; Sample.block1_next].
Proof.
  assert (Hp : Forall plain_row sample_rows).
  { repeat constructor. }
  assert (Hc : Forall2 (converts sample_float) sample_rows sample_values).
  { repeat constructor. }
  split; [exact Hp|]. split; [exact Hc|].
  apply (read_poses_round_trip sample_float Sample.overhead_orientation
           sample_rows sample_values Hp Hc).
Defined.

(** A file of one row that is not ended by a line feed: z is read from
    "-0.12". *)
Example unfinished_last_line :
  read_poses sample_float Sample.overhead_orientation
    (columns "0.7" "0.15" "-0.129")
  = Read [sample_cut].
Proof. reflexivity. Qed.

Lemma short_line_fails_witness :
  let text := table sample_rows +:+ String newline EmptyString in
  String newline EmptyString ∈ readlines text
  ∧ ∃ e, read_poses sample_float Sample.overhead_orientation text = Fails e
         ∧ (e = ValueError ∨ e = Builtin IndexError).
Proof.
  assert (Hin : String newline EmptyString
                ∈ readlines (table sample_rows +:+ String newline EmptyString)).
  { apply (list_elem_of_lookup_2 _ 2%nat). reflexivity. }
  intros text. split; [exact Hin|].
  apply (short_line_fails sample_float Sample.overhead_orientation text
           (String newline EmptyString) Hin).
  simpl. lia.
Defined.

Lemma more_columns_are_ignored_witness :
  read_poses sample_float Sample.overhead_orientation
    (table (take 1 sample_rows)
     +:+ (columns "0.7" "0.64" "-0.129" +:+ String comma "red")
     +:+ String newline EmptyString)
  = read_poses sample_float Sample.overhead_orientation
      (table (take 1 sample_rows)
       +:+ columns "0.7" "0.64" "-0.129" +:+ String newline EmptyString).
Proof.
  apply (more_columns_are_ignored sample_float Sample.overhead_orientation
           (table (take 1 sample_rows)) "0.7" "0.64" "-0.129" "red"
           EmptyString);
    first [reflexivity | split; reflexivity].
Defined.

End PoseFileFacts.
